(** * Stockfish cluster layer and pawn-entry bit fields

    A shallow embedding of [src/pawns.h] (the bit-field helpers
    [Pawns::get_bits] and [Pawns::set_bits]) and of [cluster.h] (the
    [Cluster] namespace: [MoveInfo], the [TTSendBuffer] bounded heap of the
    [USE_MPI] build and the inline definitions of the build without MPI),
    followed by the properties proved about them. *)

From Stdlib Require Import ZArith Lia Bool List Ascii String.
From stdpp Require Import base option list numbers strings gmap.

Local Open Scope Z_scope.

(** ** [namespace Pawns] *)

Module Pawns.

(** The template parameter [T] ranges over the unsigned integer types
    ([uint64_t] for the words [ColorData::w], [uint8_t] for
    [Entry::common]); a value of [T] is a [Z] in [0, 2^bits T). *)
Inductive utype := uint8_t | uint16_t | uint32_t | uint64_t.

Definition bits (T : utype) : Z :=
  match T with
  | uint8_t => 8
  | uint16_t => 16
  | uint32_t => 32
  | uint64_t => 64
  end.

(** [int] has 32 bits.  The operands of a type narrower than [int] are
    promoted to [int], and the expression is computed in signed arithmetic;
    the expressions of the other types are computed in [T] and wrap. *)
Definition int_bits : Z := 32.

Definition promoted (T : utype) : bool := bits T <? int_bits.

Definition arith_bits (T : utype) : Z :=
  if promoted T then int_bits else bits T.

(** The number of value bits of the type the expression is computed in. *)
Definition value_bits (T : utype) : Z :=
  if promoted T then int_bits - 1 else bits T.

(** The result [x] of an operation: an unsigned one wraps, a signed one
    that [int] cannot represent is not defined. *)
Definition arith (T : utype) (x : Z) : option Z :=
  if promoted T then
    if (- 2 ^ (int_bits - 1) <=? x) && (x <? 2 ^ (int_bits - 1))
    then Some x else None
  else Some (x mod 2 ^ bits T).

(** [x << n] and [x >> n] for [0 <= x]: they have no defined result when
    the count is negative or not below the width of the promoted left
    operand. *)
Definition shl (T : utype) (x n : Z) : option Z :=
  if (0 <=? n) && (n <? arith_bits T) then arith T (Z.shiftl x n) else None.

Definition shr (T : utype) (x n : Z) : option Z :=
  if (0 <=? n) && (n <? arith_bits T) then Some (Z.shiftr x n) else None.

(** The conversion of a result to [T]. *)
Definition to_T (T : utype) (x : Z) : Z := x mod 2 ^ bits T.

(** [(T(1) << len) - 1] *)
Definition field_mask (T : utype) (len : Z) : option Z :=
  m ← shl T 1 len; arith T (m - 1).

(** [return (w >> pos) & ((T(1) << len) - 1);] *)
Definition get_bits (T : utype) (w pos len : Z) : option Z :=
  a ← shr T w pos;
  m ← field_mask T len;
  Some (to_T T (Z.land a m)).

(** [w ^= ((val << pos) ^ w) & (((T(1) << len) - 1) << pos);]
    The word is passed by reference: the result is its new value. *)
Definition set_bits (T : utype) (w pos len val : Z) : option Z :=
  v ← shl T val pos;
  m ← field_mask T len;
  mp ← shl T m pos;
  Some (to_T T (Z.lxor w (Z.land (Z.lxor v w) mp))).

(** *** [struct ColorData] and [struct Entry] *)

(** [enum Color { WHITE, BLACK }] of types.h: the template parameter [Us]. *)
Inductive Color := WHITE | BLACK.

(** The conversion [int(x)] of an unsigned value, and the result [x] of an
    operation on [int], which is not defined when [int] cannot hold it. *)
Definition to_int (x : Z) : Z :=
  (x + 2 ^ (int_bits - 1)) mod 2 ^ int_bits - 2 ^ (int_bits - 1).

Definition int_result (x : Z) : option Z :=
  if (- 2 ^ (int_bits - 1) <=? x) && (x <? 2 ^ (int_bits - 1))
  then Some x else None.

(** [x << n] on [int]. *)
Definition shl_int (x n : Z) : option Z :=
  if (0 <=? n) && (n <? int_bits) && (0 <=? x)
  then int_result (Z.shiftl x n) else None.

(** [uint64_t w[3];] *)
Record ColorData := mkColorData { w0 : Z; w1 : Z; w2 : Z }.

(** The fields of [w[0]] as the comment of [ColorData] lists them, each with
    its first bit and its length. *)
Inductive w0_field :=
| f_mg | f_eg | f_outpost | f_dark | f_weak | f_castling | f_king.

Definition field_pos (f : w0_field) : Z :=
  match f with
  | f_mg => 0 | f_eg => 11 | f_outpost => 22 | f_dark => 46
  | f_weak => 50 | f_castling => 54 | f_king => 56
  end.

Definition field_len (f : w0_field) : Z :=
  match f with
  | f_mg => 11 | f_eg => 11 | f_outpost => 24 | f_dark => 4
  | f_weak => 4 | f_castling => 2 | f_king => 7
  end.

Section color_data.
Variable Us : Color.

(** [Score] and [make_score] belong to types.h, outside these sources. *)
Context {Score : Type}.
Variable make_score : Z → Z → Score.

(** [int mg = int(get_bits(w[0], 0, 11)) - (1 << 10);]
    [int eg = int(get_bits(w[0], 11, 11)) - (1 << 10);]
    [return make_score(mg, eg);] *)
Definition pawn_score_parts (cd : ColorData) : option (Z * Z) :=
  a ← get_bits uint64_t (w0 cd) 0 11;
  mg ← int_result (to_int a - Z.shiftl 1 10);
  b ← get_bits uint64_t (w0 cd) 11 11;
  eg ← int_result (to_int b - Z.shiftl 1 10);
  Some (mg, eg).

Definition pawn_score (cd : ColorData) : option Score :=
  p ← pawn_score_parts cd; Some (make_score p.1 p.2).

(** [return get_bits(w[0], 22, 24) << (Us == WHITE ? 16 : 24);] *)
Definition pawn_attacks_outpost (cd : ColorData) : option Z :=
  a ← get_bits uint64_t (w0 cd) 22 24;
  shl uint64_t a (match Us with WHITE => 16 | BLACK => 24 end).

(** [return int(get_bits(w[0], 46, 4));] *)
Definition pawns_on_dark_squares (cd : ColorData) : option Z :=
  a ← get_bits uint64_t (w0 cd) 46 4; Some (to_int a).

(** [return int(get_bits(w[0], 50, 4));] *)
Definition weak_unopposed (cd : ColorData) : option Z :=
  a ← get_bits uint64_t (w0 cd) 50 4; Some (to_int a).

(** [return int(get_bits(w[0], 54, 2)) << (Us == WHITE ? 0 : 2);] *)
Definition castling_rights (cd : ColorData) : option Z :=
  a ← get_bits uint64_t (w0 cd) 54 2;
  shl_int (to_int a) (match Us with WHITE => 0 | BLACK => 2 end).

(** [return Square(get_bits(w[0], 56, 7));] *)
Definition king_square (cd : ColorData) : option Z :=
  a ← get_bits uint64_t (w0 cd) 56 7; Some (to_int a).

(** [return get_bits(w[1], 0, 8);] and [return get_bits(w[1], 8, 8);] *)
Definition passed_mask (cd : ColorData) : option Z :=
  get_bits uint64_t (w1 cd) 0 8.

Definition semiopen_files (cd : ColorData) : option Z :=
  get_bits uint64_t (w1 cd) 8 8.

(** [return int(get_bits(w[1], 8 + f, 1));]: [8 + f] is computed in
    [int]. *)
Definition semiopen_file (cd : ColorData) (f : Z) : option Z :=
  p ← int_result (8 + f);
  a ← get_bits uint64_t (w1 cd) p 1;
  Some (to_int a).

(** [return get_bits(w[2], 0, 48) << (Us == WHITE ? 16 : 0);] *)
Definition pawn_attacks (cd : ColorData) : option Z :=
  a ← get_bits uint64_t (w2 cd) 0 48;
  shl uint64_t a (match Us with WHITE => 16 | BLACK => 0 end).

(** [king_safety(pos, ksq)]: [can_castle] is the value of
    [pos.can_castle(Us)] and [do_king_safety] the member that recomputes
    and stores the score, both outside these sources.  The result is the
    score and the data after the call.
    [int mg = int(get_bits(w[2], 48, 13)) - (1 << 12);]
    [int eg = -16 * int(get_bits(w[2], 61, 3));] *)
Definition king_safety_parts (cd : ColorData) : option (Z * Z) :=
  a ← get_bits uint64_t (w2 cd) 48 13;
  mg ← int_result (to_int a - Z.shiftl 1 12);
  b ← get_bits uint64_t (w2 cd) 61 3;
  eg ← int_result (-16 * to_int b);
  Some (mg, eg).

Definition king_safety (do_king_safety : Z → ColorData → Score * ColorData)
           (can_castle : Z) (cd : ColorData) (ksq : Z)
  : option (Score * ColorData) :=
  ks ← king_square cd;
  if ks =? ksq then
    cr ← castling_rights cd;
    if cr =? can_castle then
      p ← king_safety_parts cd; Some (make_score p.1 p.2, cd)
    else Some (do_king_safety ksq cd)
  else Some (do_king_safety ksq cd).

End color_data.

(** [struct Entry]: [Key key;]
    [std::tuple<ColorData<WHITE>, ColorData<BLACK>> cd;] [uint8_t common;] *)
Record Entry := mkEntry
  { key : Z; cd : ColorData * ColorData; common : Z }.

(** [return std::get<Us == BLACK>(cd);] *)
Definition data (Us : Color) (e : Entry) : ColorData :=
  match Us with WHITE => (cd e).1 | BLACK => (cd e).2 end.

(** [return get_bits(common, 0, 4);] and [return get_bits(common, 4, 4);] *)
Definition pawn_asymmetry (e : Entry) : option Z :=
  a ← get_bits uint8_t (common e) 0 4; Some (to_int a).

Definition open_files (e : Entry) : option Z :=
  a ← get_bits uint8_t (common e) 4 4; Some (to_int a).

End Pawns.

(** ** The heap algorithms of [<algorithm>]

    [TTSendBuffer::replace] calls [std::pop_heap] and [std::push_heap].
    They are embedded here after the GNU implementation (stl_heap.h): an
    iterator range is the list of its elements, indices are distances from
    [first], and each [while] loop runs on a fuel that its caller sets to a
    bound on the number of iterations. *)

Module StdHeap.
Section algorithms.
Context {A : Type} `{!Inhabited A}.
Variable comp : A → A → bool.

Definition parent (i : nat) : nat := ((i - 1) / 2)%nat.

(** [std::is_heap]: no element is [comp]-below its child. *)
Definition is_heap (l : list A) : bool :=
  forallb (λ i, negb (comp (l !!! parent i) (l !!! i)))
          (seq 1 (length l - 1)).

(** The loop of [__push_heap]: the hole climbs while its parent is
    [comp]-below [value]; then [value] is stored in the hole. *)
Fixpoint push_heap_loop (fuel : nat) (l : list A)
         (holeIndex topIndex : nat) (value : A) : list A :=
  match fuel with
  | O => <[holeIndex := value]> l
  | S fuel' =>
      let p := parent holeIndex in
      if (topIndex <? holeIndex)%nat && comp (l !!! p) value
      then push_heap_loop fuel' (<[holeIndex := l !!! p]> l) p topIndex value
      else <[holeIndex := value]> l
  end.

Definition push_heap_aux (l : list A) (holeIndex topIndex : nat) (value : A)
  : list A :=
  push_heap_loop holeIndex l holeIndex topIndex value.

(** [std::push_heap(first, last, comp)]: the element at [last - 1] enters
    the heap [first, last - 1). *)
Definition push_heap (l : list A) : list A :=
  let last := (length l - 1)%nat in
  push_heap_aux l last 0 (l !!! last).

(** The first loop of [__adjust_heap]: the hole descends to the larger
    child while it has two children. *)
Fixpoint adjust_heap_loop (fuel : nat) (l : list A) (holeIndex len : nat)
  : list A * nat :=
  match fuel with
  | O => (l, holeIndex)
  | S fuel' =>
      if (holeIndex <? (len - 1) / 2)%nat then
        let right := (2 * (holeIndex + 1))%nat in
        let secondChild :=
          if comp (l !!! right) (l !!! (right - 1)%nat)
          then (right - 1)%nat else right in
        adjust_heap_loop fuel' (<[holeIndex := l !!! secondChild]> l)
                         secondChild len
      else (l, holeIndex)
  end.

(** The step after the loop: a last node with a single child. *)
Definition adjust_heap_last (l : list A) (holeIndex len : nat)
  : list A * nat :=
  if Nat.even len && (holeIndex =? (len - 2) / 2)%nat then
    let child := (2 * (holeIndex + 1) - 1)%nat in
    (<[holeIndex := l !!! child]> l, child)
  else (l, holeIndex).

Definition adjust_heap (l : list A) (holeIndex len : nat) (value : A)
  : list A :=
  let '(l1, h1) := adjust_heap_loop len l holeIndex len in
  let '(l2, h2) := adjust_heap_last l1 h1 len in
  push_heap_aux l2 h2 holeIndex value.

(** [std::pop_heap(first, last, comp)]: the first element goes to
    [last - 1] and [first, last - 1) is made a heap again. *)
Definition pop_heap (l : list A) : list A :=
  if (1 <? length l)%nat then
    let last := (length l - 1)%nat in
    let value := l !!! last in
    adjust_heap (take last l) 0 last value ++ [l !!! 0%nat]
  else l.

(** The order [is_heap] checks, index by index. *)
Definition heap_ordered (l : list A) : Prop :=
  ∀ i, (0 < i < length l)%nat → comp (l !!! parent i) (l !!! i) = false.

(** The state of [__push_heap] while the hole climbs: the list is heap
    ordered away from the hole, and neither the parent of the hole nor the
    pending value is below a child of the hole. *)
Record hole_ok (l : list A) (h : nat) (v : A) : Prop := {
  hole_away : ∀ i, (0 < i < length l)%nat → i ≠ h → parent i ≠ h →
    comp (l !!! parent i) (l !!! i) = false;
  hole_above : ∀ c, (0 < c < length l)%nat → parent c = h → (0 < h)%nat →
    comp (l !!! parent h) (l !!! c) = false;
  hole_value : ∀ c, (0 < c < length l)%nat → parent c = h →
    comp v (l !!! c) = false
}.

End algorithms.
End StdHeap.

(** ** [namespace Cluster] *)

Module Cluster.

(** [struct MoveInfo { int move; int depth; int score; int rank; };] *)
Record MoveInfo := mkMoveInfo
  { mi_move : Z; mi_depth : Z; mi_score : Z; mi_rank : Z }.

(** The types of tt.h and types.h, which are not among the sources:
    [Key] is a 64-bit hash, [Value], [Depth], [Move] and [Bound] are
    integer enumerations. *)
Definition Key := Z.
Definition Value := Z.
Definition Depth := Z.
Definition Move := Z.
Definition Bound := Z.

(** Modelled from the spec: [TTEntry] is declared in tt.h, which is not
    among the sources; its payload is the value estimate, the bound kind,
    the search depth, the best move, the static evaluation and the
    generation marker. *)
Record TTEntry := mkTTEntry
  { tte_value : Value; tte_bound : Bound; tte_depth : Depth;
    tte_move : Move; tte_eval : Value; tte_generation : Z }.

(** [using KeyedTTEntry = std::pair<Key, TTEntry>;] *)
Definition KeyedTTEntry : Type := Key * TTEntry.

(** [lhs.second.depth()] *)
Definition depth (e : KeyedTTEntry) : Depth := tte_depth e.2.

(** A value-initialised entry: every member is zero. *)
Definition TTEntry_zero : TTEntry := mkTTEntry 0 0 0 0 0 0.
Definition KeyedTTEntry_zero : KeyedTTEntry := (0, TTEntry_zero).

#[export] Instance TTEntry_inhabited : Inhabited TTEntry :=
  populate TTEntry_zero.

(** The entry of a given key and depth whose other members are zero. *)
Definition entry_of_depth (k : Key) (d : Depth) : KeyedTTEntry :=
  (k, mkTTEntry 0 0 d 0 0 0).

(** [constexpr std::size_t TTSendBufferSize = 32;] *)
Definition TTSendBufferSize : nat := 32.

(** *** [template <std::size_t N> class TTSendBuffer] *)
Module TTSendBuffer.

(** [return lhs.second.depth() > rhs.second.depth();] *)
Definition compare (lhs rhs : KeyedTTEntry) : bool :=
  depth rhs <? depth lhs.

(** The buffer is a [std::array<KeyedTTEntry, N>]: a list of [N]
    entries.  [front()] is the element at index 0 and [back()] the one
    at index [N - 1]. *)
Definition front (this : list KeyedTTEntry) : KeyedTTEntry :=
  this !!! 0%nat.

Definition set_back (this : list KeyedTTEntry) (value : KeyedTTEntry)
  : list KeyedTTEntry :=
  <[(length this - 1)%nat := value]> this.

(** [bool replace(const KeyedTTEntry& value)]: the result and the new
    contents of the array. *)
Definition replace (value : KeyedTTEntry) (this : list KeyedTTEntry)
  : bool * list KeyedTTEntry :=
  if compare value (front this) then
    let this1 := StdHeap.pop_heap compare this in
    let this2 := set_back this1 value in
    let this3 := StdHeap.push_heap compare this2 in
    (true, this3)
  else (false, this).

(** A default-constructed buffer: [std::pair]'s default constructor
    value-initialises both members of every element. *)
Definition fresh (N : nat) : list KeyedTTEntry :=
  replicate N KeyedTTEntry_zero.

(** A sequence of calls to [replace], in order: the results and the
    final contents. *)
Fixpoint replace_all (values : list KeyedTTEntry)
         (this : list KeyedTTEntry) : list bool * list KeyedTTEntry :=
  match values with
  | [] => ([], this)
  | v :: values' =>
      let '(r, this') := replace v this in
      let '(rs, this'') := replace_all values' this' in
      (r :: rs, this'')
  end.

(** What one call leaves out of the array: the old front when the value is
    admitted, the value itself when it is not. *)
Definition left_out (value : KeyedTTEntry) (this : list KeyedTTEntry)
  : KeyedTTEntry :=
  if (replace value this).1 then front this else value.

(** The least depth stored in the array. *)
Definition min_depth (this : list KeyedTTEntry) : Depth :=
  foldr Z.min (depth (front this)) (depth <$> this).

(** The slots that hold an offered entry: a value-initialised slot has
    depth 0 and an entry is only stored over a slot of smaller depth. *)
Definition held (this : list KeyedTTEntry) : list KeyedTTEntry :=
  filter (λ e, 0 < depth e) this.

(** [sel] is a selection of highest depth out of [all]: what is left out is
    nowhere deeper than what is selected. *)
Definition top_of (sel all : list KeyedTTEntry) : Prop :=
  ∃ rest, sel ++ rest ≡ₚ all
          ∧ ∀ x y, x ∈ sel → y ∈ rest → depth y <= depth x.


End TTSendBuffer.

(** *** [std::istream] and [std::getline]

    A stream is the characters not yet read, the way its source ends once
    they are consumed, and the three state bits. *)

Inductive source_end := at_eof | read_error.

Record istream := mkIstream
  { pending : string; source : source_end;
    eofbit : bool; failbit : bool; badbit : bool }.

Definition good (s : istream) : bool :=
  negb (eofbit s || failbit s || badbit s).

Definition fail (s : istream) : bool := failbit s || badbit s.

(** [explicit operator bool() const]: [!fail()]. *)
Definition istream_bool (s : istream) : bool := negb (fail s).

Definition newline : ascii := "010"%char.

(** Characters up to the first newline, and what follows that newline when
    there is one. *)
Fixpoint extract_line (s : string) : string * option string :=
  match s with
  | EmptyString => (EmptyString, None)
  | String c s' =>
      if Ascii.eqb c newline then (EmptyString, Some s')
      else let '(line, rest) := extract_line s' in (String c line, rest)
  end.

(** [std::getline(input, str)]: when the stream is not good only [failbit]
    is set; otherwise [str] is erased and characters are appended to it up
    to a newline, which is extracted and dropped, or to the end of the
    source, which sets [eofbit], or [badbit] when the source fails;
    [failbit] is set when nothing was extracted.  A string has no bound on
    its length here, so [max_size()] is never met. *)
Definition std_getline (input : istream) (str : string) : istream * string :=
  if good input then
    match extract_line (pending input) with
    | (line, Some rest) =>
        (mkIstream rest (source input) false false false, line)
    | (line, None) =>
        let nothing := String.eqb line EmptyString in
        match source input with
        | at_eof => (mkIstream EmptyString at_eof true nothing false, line)
        | read_error =>
            (mkIstream EmptyString read_error false nothing true, line)
        end
    end
  else
    (mkIstream (pending input) (source input) (eofbit input) true
               (badbit input), str).

(** The two conditions of section 4.7 and section 7 on a stream about to
    be read.  End of stream: the end was met before, or nothing is left in
    a source that ends.  Read failure: the stream had failed before, or the
    source fails before a line is complete. *)
Fixpoint has_newline (s : string) : bool :=
  match s with
  | EmptyString => false
  | String c s' => Ascii.eqb c newline || has_newline s'
  end.

Definition end_of_stream (input : istream) : bool :=
  eofbit input
  || (String.eqb (pending input) EmptyString
      && match source input with at_eof => true | read_error => false end).

Definition read_fails (input : istream) : bool :=
  failbit input || badbit input
  || (negb (has_newline (pending input))
      && match source input with at_eof => false | read_error => true end).

(** *** The functions of the build without [USE_MPI] *)

(** [class Thread;] is only declared: a thread is known by its address, and
    so is the slot a [TTEntry*] points to. *)
Definition Thread := Z.
Definition TTEntry_ptr := Z.

(** What the functions of the namespace can reach: the slots of the
    transposition table, the send buffers of the threads (they only exist
    in the [USE_MPI] build) and, modelled from the spec (section 4.4), the
    stop request of the search. *)
Record World := mkWorld
  { tt_slots : gmap Z TTEntry;
    send_buffers : gmap Z (list KeyedTTEntry);
    stop : bool }.

(** A function of the namespace maps the state to its result and the new
    state. *)
Definition Run (R : Type) : Type := World → R * World.

Definition ret {R : Type} (r : R) : Run R := λ w, (r, w).

Definition bind {R S : Type} (m : Run R) (k : R → Run S) : Run S :=
  λ w, let '(r, w') := m w in k r w'.

Section without_mpi.

(** [TTEntry::save] is a member of tt.h, outside these sources: what it
    stores in the slot it is called on is a parameter. *)
Variable TTEntry_save :
  Key → Value → Bound → Depth → Move → Value → TTEntry → TTEntry.

(** [tte->save(k, v, b, d, m, ev)] *)
Definition TTEntry_save_at (tte : TTEntry_ptr) (k : Key) (v : Value)
           (b : Bound) (d : Depth) (m : Move) (ev : Value) : Run unit :=
  λ w, (tt, mkWorld (alter (TTEntry_save k v b d m ev) tte (tt_slots w))
                    (send_buffers w) (stop w)).

(** [inline void init() { }] and [inline void finalize() { }] *)
Definition init : Run unit := ret tt.
Definition finalize : Run unit := ret tt.

(** [return static_cast<bool>(std::getline(input, str));] *)
Definition getline (input : istream) (str : string)
  : bool * istream * string :=
  let '(input', str') := std_getline input str in
  (istream_bool input', input', str').

(** [constexpr int size() { return 1; }] *)
Definition size : Run Z := ret 1.

(** [constexpr int rank() { return 0; }] *)
Definition rank : Run Z := ret 0.

(** [constexpr bool is_root() { return true; }] *)
Definition is_root : Run bool := ret true.

(** [inline void save(Thread*, TTEntry* tte, Key k, Value v, Bound b,
    Depth d, Move m, Value ev) { tte->save(k, v, b, d, m, ev); }] *)
Definition save (thread : Thread) (tte : TTEntry_ptr) (k : Key) (v : Value)
           (b : Bound) (d : Depth) (m : Move) (ev : Value) : Run unit :=
  TTEntry_save_at tte k v b d m ev.

(** [inline void pick_moves(MoveInfo&) { }]: the result is the value of the
    reference argument after the call. *)
Definition pick_moves (mi : MoveInfo) : Run MoveInfo := ret mi.

(** [inline void signals_init() { }], [inline void signals_poll() { }] and
    [inline void signals_sync() { }] *)
Definition signals_init : Run unit := ret tt.
Definition signals_poll : Run unit := ret tt.
Definition signals_sync : Run unit := ret tt.

(** The calls a process makes during its lifetime. *)
Inductive call :=
| call_init
| call_finalize
| call_save (thread : Thread) (tte : TTEntry_ptr) (k : Key) (v : Value)
            (b : Bound) (d : Depth) (m : Move) (ev : Value)
| call_pick_moves (mi : MoveInfo)
| call_signals_init
| call_signals_poll
| call_signals_sync.

Definition exec (c : call) : Run unit :=
  match c with
  | call_init => init
  | call_finalize => finalize
  | call_save thread tte k v b d m ev => save thread tte k v b d m ev
  | call_pick_moves mi => bind (pick_moves mi) (λ _, ret tt)
  | call_signals_init => signals_init
  | call_signals_poll => signals_poll
  | call_signals_sync => signals_sync
  end.

Fixpoint exec_all (cs : list call) : Run unit :=
  match cs with
  | [] => ret tt
  | c :: cs' => bind (exec c) (λ _, exec_all cs')
  end.

End without_mpi.

(** The slots the [save] calls of a sequence of calls point to. *)
Fixpoint saved_slots (cs : list call) : list TTEntry_ptr :=
  match cs with
  | [] => []
  | call_save _ tte _ _ _ _ _ _ :: cs' => tte :: saved_slots cs'
  | _ :: cs' => saved_slots cs'
  end.

(** *** The functions of the [USE_MPI] build that are only declared *)

(** Modelled from the spec: the body of [pick_moves] of the [USE_MPI] build
    is not among the sources.  Section 4.5: choose the candidate with the
    greatest depth; among those the greatest score; if still tied the lowest
    rank.  [preferred a b]: [a] is chosen over [b]. *)
Definition preferred (a b : MoveInfo) : bool :=
  (mi_depth b <? mi_depth a)
  || ((mi_depth a =? mi_depth b)
      && ((mi_score b <? mi_score a)
          || ((mi_score a =? mi_score b) && (mi_rank a <? mi_rank b)))).

(** Modelled from the spec: one step of the selection, the candidate [c]
    against the best one so far. *)
Definition keep_best (best c : MoveInfo) : MoveInfo :=
  if preferred c best then c else best.

(** Modelled from the spec: the selection among the candidates gathered on
    the root, one for every rank, in the order they arrived. *)
Definition select_move (gathered : list MoveInfo) : option MoveInfo :=
  match gathered with
  | [] => None
  | first :: others => Some (foldl keep_best first others)
  end.

(** Modelled from the spec: the body of [getline] of the [USE_MPI] build is
    not among the sources.  Section 4.7: only the root rank (rank 0) reads
    the stream, and the outcome and the line are made visible to every
    rank.  [strs] holds the string of every rank, by rank. *)
Definition mpi_getline (input : istream) (strs : list string)
  : list (bool * string) * istream :=
  let '(ok, input', line) := getline input (strs !!! 0%nat) in
  ((λ _, (ok, line)) <$> strs, input').

End Cluster.


(** * Properties *)

Example get_bits_mg : Pawns.get_bits Pawns.uint64_t 0x5A5A 0 11 = Some 0x25A.
Proof. reflexivity. Qed.

Example set_bits_dark :
  Pawns.set_bits Pawns.uint64_t 0 46 4 9 = Some (9 * 2 ^ 46).
Proof. reflexivity. Qed.

Example get_bits_full_width : Pawns.get_bits Pawns.uint64_t 5 0 64 = None.
Proof. reflexivity. Qed.

Example get_bits_open_files : Pawns.get_bits Pawns.uint8_t 0xA7 4 4 = Some 0xA.
Proof. reflexivity. Qed.

Example get_bits_common_full : Pawns.get_bits Pawns.uint8_t 0xA7 0 8 = Some 0xA7.
Proof. reflexivity. Qed.

Example replace_all_capacity_two :
  Cluster.depth <$>
    (Cluster.TTSendBuffer.replace_all
       [Cluster.entry_of_depth 1 5; Cluster.entry_of_depth 2 12;
        Cluster.entry_of_depth 3 9]
       (Cluster.TTSendBuffer.fresh 2)).2
  = [9; 12].
Proof. reflexivity. Qed.

Example replace_all_results :
  (Cluster.TTSendBuffer.replace_all
     [Cluster.entry_of_depth 1 5; Cluster.entry_of_depth 2 0;
      Cluster.entry_of_depth 3 9; Cluster.entry_of_depth 4 7]
     (Cluster.TTSendBuffer.fresh 2)).1
  = [true; false; true; true].
Proof. reflexivity. Qed.

Example getline_line :
  Cluster.getline
    (Cluster.mkIstream ("go depth 10" ++ String Cluster.newline "")%string
                       Cluster.at_eof false false false) "old"
  = (true, Cluster.mkIstream "" Cluster.at_eof false false false,
     "go depth 10"%string).
Proof. reflexivity. Qed.

Example getline_at_end :
  Cluster.getline (Cluster.mkIstream "" Cluster.at_eof false false false) "old"
  = (false, Cluster.mkIstream "" Cluster.at_eof true true false, ""%string).
Proof. reflexivity. Qed.

Example select_move_tie :
  Cluster.select_move
    [Cluster.mkMoveInfo 11 20 35 1; Cluster.mkMoveInfo 10 20 35 0;
     Cluster.mkMoveInfo 12 19 90 2]
  = Some (Cluster.mkMoveInfo 10 20 35 0).
Proof. reflexivity. Qed.

(** ** The bit fields of [Pawns] *)

Section pawns_bits.
Import Pawns.

Lemma bits_pos T : 0 < bits T.
Proof. by destruct T. Qed.

Lemma arith_bits_ge T : bits T <= arith_bits T.
Proof. by destruct T. Qed.

Lemma to_T_testbit T x i :
  Z.testbit (to_T T x) i = (i <? bits T) && Z.testbit x i.
Proof.
  pose proof (bits_pos T). unfold to_T. destruct (Z.ltb_spec i (bits T)).
  - destruct (Z.neg_nonneg_cases i).
    + by rewrite !Z.testbit_neg_r.
    + by rewrite Z.mod_pow2_bits_low.
  - by rewrite Z.mod_pow2_bits_high by lia.
Qed.

Lemma arith_testbit T x y i :
  arith T x = Some y → 0 <= i < bits T → Z.testbit y i = Z.testbit x i.
Proof.
  unfold arith. destruct (promoted T).
  - destruct (_ && _); [|done]. by intros [= ->].
  - intros [= <-] Hi. fold (to_T T x). rewrite to_T_testbit.
    destruct (Z.ltb_spec i (bits T)); [done|lia].
Qed.

Lemma value_bits_ge T : bits T <= value_bits T.
Proof. by destruct T. Qed.

Lemma arith_small T x : 0 <= x < 2 ^ value_bits T → arith T x = Some x.
Proof.
  intros Hx. unfold arith, value_bits in *. destruct (promoted T).
  - unfold int_bits in *.
    assert (0 < 2 ^ (32 - 1)) by (apply Z.pow_pos_nonneg; lia).
    destruct (Z.leb_spec (- 2 ^ (32 - 1)) x), (Z.ltb_spec x (2 ^ (32 - 1)));
      simpl; try lia; done.
  - by rewrite Z.mod_small.
Qed.

Lemma shift_count_valid T n :
  (0 <=? n) && (n <? arith_bits T) = true ↔ 0 <= n < arith_bits T.
Proof. rewrite andb_true_iff, Z.leb_le, Z.ltb_lt. done. Qed.

Lemma shl_small T x n :
  0 <= n < arith_bits T → 0 <= x → x * 2 ^ n < 2 ^ value_bits T →
  shl T x n = Some (x * 2 ^ n).
Proof.
  intros Hn Hx Hs. unfold shl.
  rewrite (proj2 (shift_count_valid T n)) by done.
  rewrite Z.shiftl_mul_pow2 by lia. apply arith_small.
  split; [|done]. apply Z.mul_nonneg_nonneg; [done|]. apply Z.pow_nonneg. lia.
Qed.

Lemma shr_defined T x n :
  0 <= n < arith_bits T → shr T x n = Some (Z.shiftr x n).
Proof.
  intros Hn. unfold shr. by rewrite (proj2 (shift_count_valid T n)).
Qed.

Lemma shl_Some_inv T x n y :
  shl T x n = Some y →
  0 <= n < arith_bits T ∧ arith T (Z.shiftl x n) = Some y.
Proof.
  unfold shl. destruct (_ && _) eqn:E; [|done].
  apply shift_count_valid in E. done.
Qed.

(** The mask is [len] ones as soon as it is defined. *)
Lemma field_mask_Some_inv T len m :
  field_mask T len = Some m → 0 <= len < arith_bits T ∧ m = Z.ones len.
Proof.
  unfold field_mask. destruct (shl T 1 len) as [m1|] eqn:E; [|done]. simpl.
  apply shl_Some_inv in E as [Hl E]. rewrite Z.shiftl_1_l in E.
  intros Hm. split; [done|].
  assert (0 < 2 ^ len) by (apply Z.pow_pos_nonneg; lia).
  rewrite Z.ones_equiv.
  unfold arith in *. destruct (promoted T) eqn:Ep.
  - destruct (_ && _); [|done]. injection E as <-.
    destruct (_ && _); [|done]. injection Hm as <-. lia.
  - injection E as <-.
    assert (2 ^ len < 2 ^ bits T).
    { pose proof (bits_pos T). apply Z.pow_lt_mono_r; [lia|lia|].
      unfold arith_bits in Hl. rewrite Ep in Hl. lia. }
    rewrite (Z.mod_small (2 ^ len)) in Hm by lia.
    rewrite Z.mod_small in Hm by lia. injection Hm as <-. lia.
Qed.

Lemma pow_value_bits T n : n <= bits T → n < arith_bits T →
  2 ^ n < 2 ^ value_bits T.
Proof.
  intros Hb Ha. apply Z.pow_lt_mono_r; [lia|by destruct T|].
  unfold arith_bits, value_bits, promoted, int_bits in *.
  destruct T; simpl in *; lia.
Qed.

Lemma field_mask_defined T len :
  0 <= len < arith_bits T → len <= bits T →
  field_mask T len = Some (Z.ones len).
Proof.
  intros Hl Hb. unfold field_mask.
  assert (0 < 2 ^ len) by (apply Z.pow_pos_nonneg; lia).
  pose proof (pow_value_bits T len Hb ltac:(lia)).
  rewrite shl_small by lia. simpl. rewrite Z.mul_1_l, Z.ones_equiv.
  replace (Z.pred (2 ^ len)) with (2 ^ len - 1) by lia.
  apply arith_small. lia.
Qed.

Lemma shifted_ones_testbit pos len i :
  0 <= pos → 0 <= len →
  Z.testbit (Z.shiftl (Z.ones len) pos) i = (pos <=? i) && (i <? pos + len).
Proof.
  intros Hp Hl. destruct (Z.leb_spec pos i); simpl.
  - rewrite Z.shiftl_spec by lia.
    destruct (Z.ltb_spec i (pos + len)).
    + apply Z.ones_spec_low. lia.
    + apply Z.ones_spec_high. lia.
  - destruct (Z.neg_nonneg_cases i).
    + by rewrite Z.testbit_neg_r.
    + by rewrite Z.shiftl_spec_low.
Qed.

(** Whenever [set_bits] is defined, the bits of the new word within the
    width of [T] are those of [w], but for the field, which takes the bits of
    [val << pos]. *)
Lemma set_bits_testbit T w pos len val w' i :
  set_bits T w pos len val = Some w' → 0 <= i < bits T →
  0 <= pos ∧ 0 <= len ∧
  Z.testbit w' i =
  if (pos <=? i) && (i <? pos + len) then Z.testbit val (i - pos)
  else Z.testbit w i.
Proof.
  unfold set_bits. intros Hs Hi.
  destruct (shl T val pos) as [v|] eqn:Ev; [|done]. simpl in Hs.
  destruct (field_mask T len) as [m|] eqn:Em; [|done]. simpl in Hs.
  destruct (shl T m pos) as [mp|] eqn:Emp; [|done]. simpl in Hs.
  injection Hs as <-.
  apply field_mask_Some_inv in Em as [Hl ->].
  apply shl_Some_inv in Ev as [Hp Ev].
  apply shl_Some_inv in Emp as [_ Emp].
  split; [lia|]. split; [lia|].
  rewrite to_T_testbit, Z.lxor_spec, Z.land_spec, Z.lxor_spec.
  rewrite (arith_testbit _ _ _ i Ev), (arith_testbit _ _ _ i Emp) by done.
  rewrite shifted_ones_testbit by lia.
  destruct (Z.ltb_spec i (bits T)); [simpl|lia].
  destruct ((pos <=? i) && (i <? pos + len)) eqn:E.
  - apply andb_prop in E as [?%Z.leb_le _].
    rewrite Z.shiftl_spec by lia.
    by destruct (Z.testbit w i), (Z.testbit val (i - pos)).
  - by rewrite andb_false_r, xorb_false_r.
Qed.

Lemma set_bits_defined T w pos len val :
  0 <= pos < arith_bits T → 0 <= len < arith_bits T → pos + len <= bits T →
  0 <= val < 2 ^ len → is_Some (set_bits T w pos len val).
Proof.
  intros Hp Hl Hpl Hv. unfold set_bits.
  assert (0 < 2 ^ pos) by (apply Z.pow_pos_nonneg; lia).
  assert (2 ^ (pos + len) <= 2 ^ bits T) by (apply Z.pow_le_mono_r; lia).
  assert (2 ^ bits T <= 2 ^ value_bits T).
  { apply Z.pow_le_mono_r; [lia|apply value_bits_ge]. }
  rewrite Z.pow_add_r in * by lia.
  rewrite shl_small by nia. simpl.
  rewrite field_mask_defined by lia. simpl.
  rewrite shl_small; [by eauto|lia| |].
  - rewrite Z.ones_equiv. lia.
  - rewrite Z.ones_equiv. nia.
Qed.

Lemma set_bits_defined_wide T w pos len val :
  promoted T = false → 0 <= pos < bits T → 0 <= len < bits T →
  is_Some (set_bits T w pos len val).
Proof.
  intros Ep Hp Hl. unfold set_bits, field_mask, shl, arith_bits, arith.
  rewrite Ep.
  destruct (Z.leb_spec 0 pos), (Z.ltb_spec pos (bits T)); try lia.
  destruct (Z.leb_spec 0 len), (Z.ltb_spec len (bits T)); try lia.
  simpl. eauto.
Qed.

Lemma get_bits_defined T w pos len :
  0 <= pos < arith_bits T → 0 <= len < arith_bits T → len <= bits T →
  get_bits T w pos len
  = Some (to_T T (Z.land (Z.shiftr w pos) (Z.ones len))).
Proof.
  intros Hp Hl Hb. unfold get_bits. rewrite shr_defined by done. simpl.
  by rewrite field_mask_defined by done.
Qed.

End pawns_bits.

(** C8 (as amended).  For a word of an unsigned type [T], a position and a
    length that are valid shift counts (not negative and below the width of
    the type the expression is computed in: that of [T], or that of [int]
    for a [T] promoted to [int]) with [pos + len <= bits T], and a value
    [val < 2^len]: [set_bits] followed by [get_bits] on the same field is
    defined and reads [val] back. *)
Theorem set_get_bits T w pos len val :
  0 <= pos < Pawns.arith_bits T → 0 <= len < Pawns.arith_bits T →
  pos + len <= Pawns.bits T → 0 <= val < 2 ^ len →
  (Pawns.set_bits T w pos len val ≫= λ w', Pawns.get_bits T w' pos len)
  = Some val.
Proof.
  intros Hp Hl Hpl Hv.
  destruct (set_bits_defined T w pos len val Hp Hl Hpl Hv) as [w' Hs].
  rewrite Hs. simpl. rewrite get_bits_defined by lia. f_equal.
  apply Z.bits_inj'. intros n Hn.
  rewrite to_T_testbit, Z.land_spec, Z.shiftr_spec by done.
  destruct (Z.ltb_spec n len).
  - rewrite Z.ones_spec_low by lia.
    destruct (Z.ltb_spec n (Pawns.bits T)); [simpl|lia].
    destruct (set_bits_testbit T w pos len val w' (n + pos) Hs) as (_ & _ & ->);
      [lia|].
    destruct (Z.leb_spec pos (n + pos)); [|lia].
    destruct (Z.ltb_spec (n + pos) (pos + len)); [|lia].
    simpl. rewrite andb_true_r. f_equal. lia.
  - rewrite Z.ones_spec_high by lia. rewrite !andb_false_r.
    symmetry. rewrite <- (Z.mod_small val (2 ^ len)) by lia.
    apply Z.mod_pow2_bits_high. lia.
Qed.

Lemma set_get_bits_witness :
  (0 <= 46 < Pawns.arith_bits Pawns.uint64_t
   ∧ 0 <= 4 < Pawns.arith_bits Pawns.uint64_t
   ∧ 46 + 4 <= Pawns.bits Pawns.uint64_t ∧ 0 <= 9 < 2 ^ 4)
  ∧ (Pawns.set_bits Pawns.uint64_t 0 46 4 9
       ≫= λ w', Pawns.get_bits Pawns.uint64_t w' 46 4) = Some 9.
Proof.
  split; [vm_compute; intuition discriminate|].
  apply (set_get_bits Pawns.uint64_t 0 46 4 9); vm_compute;
    intuition discriminate.
Defined.

(** C8 as stated fails on a field as wide as a word of [uint64_t]:
    [pos = 0] and [len = 64] satisfy [pos + len <= 64], but [T(1) << 64]
    has no defined result, so nothing is read back. *)
Lemma set_get_bits_full_width :
  0 + 64 <= Pawns.bits Pawns.uint64_t ∧ 0 <= 1 < 2 ^ 64
  ∧ (Pawns.set_bits Pawns.uint64_t 0 0 64 1
       ≫= λ w', Pawns.get_bits Pawns.uint64_t w' 0 64) ≠ Some 1.
Proof.
  split; [vm_compute; discriminate|]. split; [lia|]. discriminate.
Qed.

(** C9.  [set_bits] changes no bit outside the field.  It is defined on
    the fields that fit the word, and for a type that is not promoted on
    all valid shift counts whatever [val] is; and whenever it is defined,
    every bit of the new word at an index within the width of [T] and
    outside [pos, pos + len) is the bit of the old word. *)
Theorem set_bits_frame T w pos len val :
  (0 <= pos < Pawns.arith_bits T → 0 <= len < Pawns.arith_bits T →
   pos + len <= Pawns.bits T → 0 <= val < 2 ^ len →
   is_Some (Pawns.set_bits T w pos len val))
  ∧ (Pawns.promoted T = false →
     0 <= pos < Pawns.bits T → 0 <= len < Pawns.bits T →
     is_Some (Pawns.set_bits T w pos len val))
  ∧ ∀ w', Pawns.set_bits T w pos len val = Some w' →
      ∀ i, 0 <= i < Pawns.bits T → ¬ (pos <= i < pos + len) →
           Z.testbit w' i = Z.testbit w i.
Proof.
  split; [apply set_bits_defined|]. split; [apply set_bits_defined_wide|].
  intros w' Hs i Hi Hout.
  destruct (set_bits_testbit T w pos len val w' i Hs Hi) as (_ & _ & ->).
  destruct (Z.leb_spec pos i), (Z.ltb_spec i (pos + len)); simpl; done || lia.
Qed.

Lemma set_bits_frame_witness :
  Pawns.set_bits Pawns.uint64_t 5 46 4 9 = Some (5 + 9 * 2 ^ 46)
  ∧ 0 <= 0 < Pawns.bits Pawns.uint64_t
  ∧ ¬ (46 <= 0 < 46 + 4)
  ∧ Z.testbit (5 + 9 * 2 ^ 46) 0 = Z.testbit 5 0.
Proof.
  split; [reflexivity|]. split; [vm_compute; intuition discriminate|].
  split; [lia|].
  apply (proj2 (proj2 (set_bits_frame Pawns.uint64_t 5 46 4 9)) _ eq_refl 0);
    [vm_compute; intuition discriminate|lia].
Defined.

(** ** The heap algorithms *)

Local Open Scope nat_scope.

Section heap_proofs.
Import StdHeap.
Context {A : Type} `{!Inhabited A}.
Variable comp : A → A → bool.
Hypothesis comp_asym : ∀ x y, comp x y = true → comp y x = false.
Hypothesis comp_negtrans :
  ∀ x y z, comp x y = false → comp y z = false → comp x z = false.

Local Abbreviation heap_ordered := (heap_ordered comp).
Local Abbreviation hole_ok := (hole_ok comp).

Lemma comp_irrefl x : comp x x = false.
Proof.
  destruct (comp x x) eqn:E; [|done].
  pose proof (comp_asym _ _ E). congruence.
Qed.

Lemma parent_lt i : 0 < i → parent i < i.
Proof. unfold parent. intros. apply Nat.Div0.div_lt_upper_bound. lia. Qed.

Lemma parent_children c h :
  0 < c → parent c = h ↔ c = 2 * h + 1 ∨ c = 2 * h + 2.
Proof.
  unfold parent. intros Hc. split.
  - intros <-. pose proof (Nat.div_mod_eq (c - 1) 2) as Hd.
    pose proof (Nat.mod_upper_bound (c - 1) 2). lia.
  - intros [-> | ->].
    + replace (2 * h + 1 - 1) with (h * 2) by lia. by rewrite Nat.div_mul.
    + replace (2 * h + 2 - 1) with (1 + h * 2) by lia.
      rewrite Nat.div_add by lia. done.
Qed.

Lemma is_heap_spec l : is_heap comp l = true ↔ heap_ordered l.
Proof.
  unfold is_heap, heap_ordered. rewrite forallb_forall. split.
  - intros Hf i Hi. apply negb_true_iff, Hf, in_seq. lia.
  - intros Hh i Hi%in_seq. apply negb_true_iff, Hh. lia.
Qed.

Lemma heap_ordered_front l i :
  heap_ordered l → i < length l → comp (l !!! 0) (l !!! i) = false.
Proof.
  intros Hh. induction (lt_wf i) as [i _ IH]. intros Hi.
  destruct (decide (i = 0)) as [->|Hne]; [apply comp_irrefl|].
  pose proof (parent_lt i ltac:(lia)).
  apply comp_negtrans with (l !!! parent i); [apply IH; lia|apply Hh; lia].
Qed.

Lemma heap_ordered_take l n : heap_ordered l → heap_ordered (take n l).
Proof.
  intros Hh i Hi. rewrite length_take in Hi.
  pose proof (parent_lt i ltac:(lia)).
  rewrite !lookup_total_take_lt by lia. apply Hh. lia.
Qed.

Lemma insert_Permutation_cons (l : list A) i x :
  i < length l → <[i:=x]> l ≡ₚ x :: delete i l.
Proof.
  revert i. induction l as [|a l IH]; intros [|i] Hi; simpl in *; try lia.
  - done.
  - rewrite IH by lia. apply Permutation_swap.
Qed.

Lemma insert_move_Permutation (l : list A) i j x :
  i < length l → j < length l → i ≠ j →
  <[j:=x]> (<[i:=l !!! j]> l) ≡ₚ <[i:=x]> l.
Proof.
  revert i j. induction l as [|a l IH]; intros [|i] [|j] Hi Hj Hne;
    simpl in *; try lia.
  - rewrite insert_Permutation_cons by lia.
    rewrite Permutation_swap. f_equiv. symmetry.
    apply delete_Permutation, list_lookup_lookup_total_lt. lia.
  - rewrite !insert_Permutation_cons by lia. apply Permutation_swap.
  - f_equiv. apply IH; lia.
Qed.

Lemma push_heap_loop_length fuel (l : list A) h top v :
  length (push_heap_loop comp fuel l h top v) = length l.
Proof.
  revert l h. induction fuel as [|fuel IH]; intros l h; simpl.
  - apply length_insert.
  - destruct (_ && _); [rewrite IH|]; apply length_insert.
Qed.

Lemma push_heap_loop_Permutation fuel (l : list A) h v :
  h < length l → push_heap_loop comp fuel l h 0 v ≡ₚ <[h:=v]> l.
Proof.
  revert l h. induction fuel as [|fuel IH]; intros l h Hh; simpl; [done|].
  destruct (_ && _) eqn:E; [|done].
  apply andb_prop in E as [Hlt%Nat.ltb_lt _].
  pose proof (parent_lt h Hlt).
  rewrite IH by (rewrite length_insert; lia).
  apply insert_move_Permutation; lia.
Qed.

Lemma push_heap_loop_heap fuel (l : list A) h v :
  h ≤ fuel → h < length l → hole_ok l h v →
  heap_ordered (push_heap_loop comp fuel l h 0 v).
Proof.
  revert l h. induction fuel as [|fuel IH]; intros l h Hf Hh [Ha Hb Hc].
  - assert (h = 0) as -> by lia. simpl. intros i Hi.
    rewrite length_insert in Hi.
    pose proof (parent_lt i ltac:(lia)).
    rewrite (list_lookup_total_insert_ne _ 0 i) by lia.
    destruct (decide (parent i = 0)) as [Hp|Hp].
    + rewrite Hp, list_lookup_total_insert_eq by lia. apply Hc; [lia|done].
    + rewrite list_lookup_total_insert_ne by lia. apply Ha; lia.
  - simpl. destruct (_ && _) eqn:E.
    + apply andb_prop in E as [Hlt%Nat.ltb_lt Hcmp].
      pose proof (parent_lt h Hlt) as Hph.
      apply IH; [lia|rewrite length_insert; lia|].
      split; intros i; rewrite length_insert; intros Hi.
      * intros Hne Hpne. pose proof (parent_lt i ltac:(lia)).
        assert (i ≠ h) by (intros ->; done).
        rewrite (list_lookup_total_insert_ne _ h i) by done.
        destruct (decide (parent i = h)) as [Hp|Hp].
        -- rewrite Hp, list_lookup_total_insert_eq by lia.
           apply Hb; [lia|done|lia].
        -- rewrite list_lookup_total_insert_ne by done. apply Ha; done.
      * intros Hp Hpos. pose proof (parent_lt (parent h) Hpos).
        rewrite (list_lookup_total_insert_ne _ h (parent (parent h))) by lia.
        assert (comp (l !!! parent (parent h)) (l !!! parent h) = false)
          as Hgp by (apply Ha; lia).
        destruct (decide (i = h)) as [->|Hne].
        -- by rewrite list_lookup_total_insert_eq by lia.
        -- rewrite list_lookup_total_insert_ne by done.
           apply comp_negtrans with (l !!! parent h); [done|].
           rewrite <- Hp. apply Ha; [lia|done|lia].
      * intros Hp.
        assert (comp v (l !!! parent h) = false) as Hv
          by by apply comp_asym.
        destruct (decide (i = h)) as [->|Hne].
        -- by rewrite list_lookup_total_insert_eq by lia.
        -- rewrite list_lookup_total_insert_ne by done.
           apply comp_negtrans with (l !!! parent h); [done|].
           rewrite <- Hp. apply Ha; [lia|done|lia].
    + intros i Hi. rewrite length_insert in Hi.
      pose proof (parent_lt i ltac:(lia)).
      destruct (decide (i = h)) as [->|Hne].
      * rewrite list_lookup_total_insert_eq by lia.
        rewrite list_lookup_total_insert_ne by lia.
        apply andb_false_iff in E as [E%Nat.ltb_ge|E]; [lia|done].
      * rewrite (list_lookup_total_insert_ne _ h i) by done.
        destruct (decide (parent i = h)) as [Hp|Hp].
        -- rewrite Hp, list_lookup_total_insert_eq by lia. apply Hc; [lia|done].
        -- rewrite list_lookup_total_insert_ne by done. apply Ha; done.
Qed.

Lemma hole_ok_leaf (l : list A) h v :
  heap_ordered l → length l ≤ 2 * h + 1 → hole_ok l h v.
Proof.
  intros Hh Hleaf. split.
  - intros i Hi _ _. by apply Hh.
  - intros c Hc Hp _. apply parent_children in Hp; lia.
  - intros c Hc Hp. apply parent_children in Hp; lia.
Qed.

Lemma heap_ordered_move_child (l : list A) h c :
  heap_ordered l → c < length l → parent c = h → 0 < c →
  (∀ i, 0 < i < length l → parent i = h → comp (l !!! c) (l !!! i) = false) →
  heap_ordered (<[h:=l !!! c]> l).
Proof.
  intros Hh Hc Hp Hpos Hbig i. rewrite length_insert. intros Hi.
  pose proof (parent_lt i ltac:(lia)). pose proof (parent_lt c Hpos).
  destruct (decide (i = h)) as [->|Hne].
  - rewrite list_lookup_total_insert_eq by lia.
    rewrite list_lookup_total_insert_ne by lia.
    apply comp_negtrans with (l !!! h); [by apply Hh|].
    rewrite <- Hp. apply Hh. lia.
  - rewrite (list_lookup_total_insert_ne _ h i) by done.
    destruct (decide (parent i = h)) as [Hpi|Hpi].
    + rewrite Hpi, list_lookup_total_insert_eq by lia. by apply Hbig.
    + rewrite list_lookup_total_insert_ne by done. by apply Hh.
Qed.

Lemma adjust_heap_loop_S fuel (l : list A) h len :
  adjust_heap_loop comp (S fuel) l h len =
  if h <? (len - 1) / 2 then
    let right := 2 * (h + 1) in
    let secondChild :=
      if comp (l !!! right) (l !!! (right - 1)) then right - 1 else right in
    adjust_heap_loop comp fuel (<[h:=l !!! secondChild]> l) secondChild len
  else (l, h).
Proof. reflexivity. Qed.

Lemma adjust_heap_loop_spec fuel (l : list A) h len l' h' :
  heap_ordered l → length l = len → h < len →
  adjust_heap_loop comp fuel l h len = (l', h') →
  heap_ordered l' ∧ length l' = len ∧ h' < len
  ∧ (∀ x, <[h':=x]> l' ≡ₚ <[h:=x]> l)
  ∧ (len ≤ fuel + h → (len - 1) / 2 ≤ h').
Proof.
  revert l h. induction fuel as [|fuel IH]; intros l h Hh Hlen Hlt.
  - intros [= <- <-]. repeat split; try done. lia.
  - rewrite adjust_heap_loop_S. cbv zeta.
    destruct (Nat.ltb_spec h ((len - 1) / 2)) as [Hc|Hc].
    + set (right := 2 * (h + 1)).
      set (c := if comp (l !!! right) (l !!! (right - 1)) then right - 1 else right).
      assert (right < len) as Hr.
      { pose proof (Nat.Div0.mul_div_le (len - 1) 2). unfold right. lia. }
      assert (c = 2 * h + 1 ∨ c = 2 * h + 2) as Hcc
        by (unfold c, right; destruct (comp _ _); lia).
      assert (parent c = h) as Hpc by (apply parent_children; lia).
      intros Hrec. apply IH in Hrec as (Hh' & Hlen' & Hlt' & Hperm & Hfuel).
      * repeat split; try done.
        -- intros x. rewrite Hperm. apply insert_move_Permutation; lia.
        -- intros. apply Hfuel. lia.
      * apply heap_ordered_move_child; [done|lia|done|lia|].
        intros i Hi Hpi. apply parent_children in Hpi; [|lia]. destruct Hpi as [->| ->].
        -- unfold c. replace (2 * h + 1) with (right - 1) by (unfold right; lia).
           destruct (comp (l !!! right) (l !!! (right - 1))) eqn:E;
             [apply comp_irrefl|done].
        -- unfold c. replace (2 * h + 2) with right by (unfold right; lia).
           destruct (comp (l !!! right) (l !!! (right - 1))) eqn:E;
             [by apply comp_asym|apply comp_irrefl].
      * by rewrite length_insert.
      * lia.
    + intros [= <- <-]. repeat split; try done.
Qed.

Lemma adjust_heap_last_spec (l : list A) h len l' h' :
  heap_ordered l → length l = len → h < len → (len - 1) / 2 ≤ h →
  adjust_heap_last l h len = (l', h') →
  heap_ordered l' ∧ length l' = len ∧ h' < len
  ∧ (∀ x, <[h':=x]> l' ≡ₚ <[h:=x]> l)
  ∧ len ≤ 2 * h' + 1.
Proof.
  intros Hh Hlen Hlt Hexit. unfold adjust_heap_last. cbv zeta.
  pose proof (Nat.div_mod_eq (len - 1) 2) as Hd1.
  pose proof (Nat.mod_upper_bound (len - 1) 2 ltac:(lia)) as Hm1.
  pose proof (Nat.div_mod_eq (len - 2) 2) as Hd2.
  pose proof (Nat.mod_upper_bound (len - 2) 2 ltac:(lia)) as Hm2.
  destruct (Nat.even len) eqn:Hev; cbn [andb].
  - apply Nat.even_spec in Hev as [k Hk].
    destruct (Nat.eqb_spec h ((len - 2) / 2)) as [Heq|Hne].
    + intros [<- <-]%pair_equal_spec.
      assert (2 * (h + 1) - 1 = len - 1) as Hchild by lia.
      assert (parent (len - 1) = h) as Hp by (apply parent_children; lia).
      rewrite Hchild. repeat split.
      * apply heap_ordered_move_child; [done|lia|done|lia|].
        intros i Hi Hpi. apply parent_children in Hpi; [|lia].
        destruct Hpi as [->| ->]; [|lia].
        replace (2 * h + 1) with (len - 1) by lia. apply comp_irrefl.
      * by rewrite length_insert.
      * lia.
      * intros x. apply insert_move_Permutation; lia.
      * lia.
    + intros [= <- <-]. repeat split; try done. lia.
  - intros [= <- <-]. repeat split; try done.
    assert (Nat.odd len = true) as [k Hk]%Nat.odd_spec
      by (by rewrite <- Nat.negb_even, Hev).
    lia.
Qed.

Lemma adjust_heap_spec (l : list A) v :
  heap_ordered l → 0 < length l →
  heap_ordered (adjust_heap comp l 0 (length l) v)
  ∧ adjust_heap comp l 0 (length l) v ≡ₚ <[0:=v]> l.
Proof.
  intros Hh Hpos. unfold adjust_heap.
  destruct (adjust_heap_loop comp (length l) l 0 (length l)) as [l1 h1] eqn:E1.
  apply adjust_heap_loop_spec in E1 as (Hh1 & Hlen1 & Hlt1 & Hperm1 & Hexit);
    [|done..].
  destruct (adjust_heap_last l1 h1 (length l)) as [l2 h2] eqn:E2.
  apply adjust_heap_last_spec in E2 as (Hh2 & Hlen2 & Hlt2 & Hperm2 & Hleaf);
    [|done|done|done|apply Hexit; lia].
  unfold push_heap_aux. split.
  - apply push_heap_loop_heap; [done|lia|]. apply hole_ok_leaf; [done|lia].
  - rewrite push_heap_loop_Permutation by lia. by rewrite Hperm2, Hperm1.
Qed.

Lemma adjust_heap_loop_length fuel (l : list A) h len :
  length (adjust_heap_loop comp fuel l h len).1 = length l.
Proof.
  revert l h. induction fuel as [|fuel IH]; intros l h; [done|].
  rewrite adjust_heap_loop_S. cbv zeta.
  destruct (h <? (len - 1) / 2); [|done]. by rewrite IH, length_insert.
Qed.

Lemma adjust_heap_last_length (l : list A) h len :
  length (adjust_heap_last l h len).1 = length l.
Proof.
  unfold adjust_heap_last. destruct (_ && _); [|done]. apply length_insert.
Qed.

Lemma adjust_heap_length (l : list A) h len v :
  length (adjust_heap comp l h len v) = length l.
Proof.
  unfold adjust_heap.
  pose proof (adjust_heap_loop_length len l h len) as H1.
  destruct (adjust_heap_loop comp len l h len) as [l1 h1].
  pose proof (adjust_heap_last_length l1 h1 len) as H2.
  destruct (adjust_heap_last l1 h1 len) as [l2 h2]. simpl in *.
  unfold push_heap_aux. rewrite push_heap_loop_length. congruence.
Qed.

Lemma pop_heap_length (l : list A) : length (pop_heap comp l) = length l.
Proof.
  unfold pop_heap. destruct (Nat.ltb_spec 1 (length l)); [|done].
  rewrite length_app, adjust_heap_length, length_take. simpl. lia.
Qed.

Lemma push_heap_length (l : list A) : length (push_heap comp l) = length l.
Proof. unfold push_heap, push_heap_aux. apply push_heap_loop_length. Qed.

Lemma list_split_last (l : list A) :
  0 < length l → l = take (length l - 1) l ++ [l !!! (length l - 1)].
Proof.
  intros Hl. rewrite <- (take_drop (length l - 1) l) at 1. f_equal.
  apply list_eq. intros [|i].
  - rewrite lookup_drop, Nat.add_0_r. simpl.
    apply list_lookup_lookup_total_lt. lia.
  - rewrite lookup_drop. simpl. apply lookup_ge_None_2. lia.
Qed.

(** [std::pop_heap] on a heap: the old first element comes last, after a
    heap of the other elements. *)
Lemma pop_heap_spec (l : list A) :
  heap_ordered l → 0 < length l →
  ∃ H, pop_heap comp l = H ++ [l !!! 0]
       ∧ heap_ordered H ∧ length H = length l - 1 ∧ H ++ [l !!! 0] ≡ₚ l.
Proof.
  intros Hh Hl. unfold pop_heap.
  destruct (Nat.ltb_spec 1 (length l)) as [Hlen|Hlen].
  - set (last := length l - 1).
    assert (length (take last l) = last) as Htl
      by (rewrite length_take; unfold last; lia).
    destruct (adjust_heap_spec (take last l) (l !!! last)) as [Hh' Hp];
      [by apply heap_ordered_take|rewrite Htl; unfold last; lia|].
    rewrite Htl in Hh', Hp.
    eexists. split; [done|]. split; [done|].
    split; [by rewrite adjust_heap_length|].
    rewrite Hp.
    transitivity (take last l ++ [l !!! last]);
      [|unfold last; by rewrite <- (list_split_last l Hl)].
    destruct (take last l) as [|a t] eqn:Et; [simpl in Htl; unfold last in *; lia|].
    assert (l !!! 0 = a) as ->.
    { rewrite <- (lookup_total_take_lt l last 0) by (unfold last; lia).
      by rewrite Et. }
    simpl. rewrite !(Permutation_app_comm t). simpl. apply Permutation_swap.
  - destruct l as [|a [|b l]]; simpl in *; try lia.
    exists []. repeat split; try done. intros i Hi. simpl in Hi. lia.
Qed.

(** [std::push_heap] when all but the last element form a heap. *)
Lemma push_heap_spec (l : list A) :
  0 < length l → heap_ordered (take (length l - 1) l) →
  heap_ordered (push_heap comp l) ∧ push_heap comp l ≡ₚ l.
Proof.
  intros Hl Hh. unfold push_heap, push_heap_aux. cbv zeta.
  set (last := length l - 1) in *. split.
  - apply push_heap_loop_heap; [done|unfold last; lia|]. split.
    + intros i Hi Hne Hpne. pose proof (parent_lt i ltac:(lia)).
      specialize (Hh i). rewrite length_take in Hh.
      rewrite !lookup_total_take_lt in Hh by (unfold last in *; lia).
      apply Hh. unfold last in *. lia.
    + intros c Hc Hp _. apply parent_children in Hp; unfold last in *; lia.
    + intros c Hc Hp. apply parent_children in Hp; unfold last in *; lia.
  - rewrite push_heap_loop_Permutation by (unfold last; lia).
    rewrite list_insert_id; [done|].
    apply list_lookup_lookup_total_lt. unfold last. lia.
Qed.

(** The body of a successful [replace]: pop, overwrite the last element,
    push. *)
Lemma pop_set_push_spec (l : list A) v :
  heap_ordered l → 0 < length l →
  let l' := push_heap comp (<[length (pop_heap comp l) - 1 := v]> (pop_heap comp l)) in
  heap_ordered l' ∧ length l' = length l ∧ l !!! 0 :: l' ≡ₚ v :: l.
Proof.
  intros Hh Hl.
  destruct (pop_heap_spec l Hh Hl) as (H & Hpop & HhH & HlenH & Hperm).
  rewrite Hpop. rewrite length_app. simpl.
  replace (length H + 1 - 1) with (length H + 0) by lia.
  rewrite insert_app_r. simpl.
  destruct (push_heap_spec (H ++ [v])) as [Hh' Hp'].
  { rewrite length_app. simpl. lia. }
  { rewrite length_app. simpl.
    replace (length H + 1 - 1) with (length H) by lia.
    by rewrite take_app_length. }
  split; [done|]. split.
  - rewrite push_heap_length, length_app. simpl. lia.
  - rewrite Hp'. set (a := l !!! 0) in *. rewrite <- Hperm.
    rewrite !(Permutation_app_comm H). simpl. apply Permutation_swap.
Qed.
End heap_proofs.

Local Open Scope Z_scope.

(** ** [TTSendBuffer] *)

Section ttsendbuffer_proofs.
Import Cluster Cluster.TTSendBuffer.

Lemma compare_false x y : compare x y = false ↔ depth x <= depth y.
Proof. unfold compare. apply Z.ltb_ge. Qed.

Lemma compare_true x y : compare x y = true ↔ depth y < depth x.
Proof. unfold compare. apply Z.ltb_lt. Qed.

Lemma compare_asym x y : compare x y = true → compare y x = false.
Proof. rewrite compare_true, compare_false. lia. Qed.

Lemma compare_negtrans x y z :
  compare x y = false → compare y z = false → compare x z = false.
Proof. rewrite !compare_false. lia. Qed.

Local Abbreviation heap := (StdHeap.heap_ordered compare).

Lemma is_heap_heap this : StdHeap.is_heap compare this = true ↔ heap this.
Proof. apply is_heap_spec. Qed.

Lemma heap_fresh N : heap (fresh N).
Proof.
  intros i Hi. unfold fresh in *. rewrite length_replicate in Hi.
  pose proof (parent_lt i ltac:(lia)).
  rewrite !lookup_total_replicate_2 by lia. done.
Qed.

Lemma front_min this x : heap this → x ∈ this → depth (front this) <= depth x.
Proof.
  intros Hh (i & Hi & <-)%list_elem_of_lookup_total.
  apply compare_false.
  by apply (heap_ordered_front compare compare_asym compare_negtrans).
Qed.

Lemma foldr_min_le d0 ds : foldr Z.min d0 ds <= d0.
Proof. induction ds as [|d ds IH]; simpl; lia. Qed.

Lemma foldr_min_elem d0 ds d : d ∈ ds → foldr Z.min d0 ds <= d.
Proof.
  induction 1 as [d ds|d d' ds _ IH]; simpl; [lia|lia].
Qed.

Lemma foldr_min_lower m d0 ds :
  m <= d0 → (∀ d, d ∈ ds → m <= d) → m <= foldr Z.min d0 ds.
Proof.
  intros H0. induction ds as [|d ds IH]; intros Hall; simpl; [done|].
  apply Z.min_glb; [apply Hall; left|apply IH; intros; apply Hall; by right].
Qed.

Lemma min_depth_le this x : x ∈ this → min_depth this <= depth x.
Proof. intros Hx. apply foldr_min_elem, list_elem_of_fmap. eauto. Qed.

Lemma min_depth_front this : heap this → min_depth this = depth (front this).
Proof.
  intros Hh. unfold min_depth. apply Z.le_antisymm; [apply foldr_min_le|].
  apply foldr_min_lower; [done|].
  intros d (x & -> & Hx)%list_elem_of_fmap. by apply front_min.
Qed.

Lemma replace_result value this :
  (replace value this).1 = compare value (front this).
Proof. unfold replace. by destruct (compare _ _). Qed.

Lemma replace_rejected value this :
  (replace value this).1 = false → (replace value this).2 = this.
Proof. unfold replace. by destruct (compare _ _). Qed.

Lemma replace_length value this :
  length (replace value this).2 = length this.
Proof.
  unfold replace. destruct (compare _ _); [|done]. simpl.
  unfold set_back.
  by rewrite push_heap_length, length_insert, pop_heap_length.
Qed.

Lemma replace_admitted value this :
  heap this → (0 < length this)%nat → (replace value this).1 = true →
  heap (replace value this).2
  ∧ front this :: (replace value this).2 ≡ₚ value :: this.
Proof.
  intros Hh Hl. unfold replace. destruct (compare _ _); [|done].
  intros _. simpl. unfold set_back, front.
  destruct (pop_set_push_spec compare compare_asym compare_negtrans
              this value Hh Hl) as (? & _ & ?).
  done.
Qed.

Lemma replace_heap value this :
  heap this → (0 < length this)%nat → heap (replace value this).2.
Proof.
  intros Hh Hl. destruct (replace value this).1 eqn:E.
  - by apply replace_admitted.
  - by rewrite replace_rejected.
Qed.

Lemma replace_left_out value this :
  heap this → (0 < length this)%nat →
  left_out value this :: (replace value this).2 ≡ₚ value :: this
  ∧ (∀ x, x ∈ (replace value this).2 → depth (left_out value this) <= depth x)
  ∧ (∀ m, (∀ x, x ∈ this → m <= depth x) →
          ∀ x, x ∈ (replace value this).2 → m <= depth x).
Proof.
  intros Hh Hl. unfold left_out.
  pose proof (replace_result value this) as Hr.
  destruct (replace value this).1 eqn:E.
  - destruct (replace_admitted value this Hh Hl E) as [_ Hp].
    symmetry in Hr. apply compare_true in Hr.
    assert (∀ x, x ∈ (replace value this).2 → x = value ∨ x ∈ this) as Hin.
    { intros x Hx. apply elem_of_cons. rewrite <- Hp. by right. }
    assert (front this ∈ this) as Hf.
    { apply list_elem_of_lookup_total. exists 0%nat. split; [lia|done]. }
    split; [done|]. split.
    + intros x [->|Hx]%Hin; [lia|by apply front_min].
    + intros m Hm x [->|Hx]%Hin; [|by apply Hm].
      specialize (Hm _ Hf). lia.
  - rewrite replace_rejected by done.
    symmetry in Hr. apply compare_false in Hr.
    split; [done|]. split; [|done].
    intros x Hx. pose proof (front_min this x Hh Hx). lia.
Qed.

Lemma replace_all_cons v values this :
  replace_all (v :: values) this =
  ((replace v this).1 :: (replace_all values (replace v this).2).1,
   (replace_all values (replace v this).2).2).
Proof.
  simpl. destruct (replace v this) as [r this']. simpl.
  by destruct (replace_all values this').
Qed.

Lemma replace_all_invariant values this :
  heap this → (0 < length this)%nat →
  heap (replace_all values this).2
  ∧ length (replace_all values this).2 = length this
  ∧ (∀ m, (∀ x, x ∈ this → m <= depth x) →
          ∀ x, x ∈ (replace_all values this).2 → m <= depth x)
  ∧ ∃ rest, (replace_all values this).2 ++ rest ≡ₚ this ++ values
            ∧ ∀ x y, x ∈ (replace_all values this).2 → y ∈ rest →
                     depth y <= depth x.
Proof.
  revert this. induction values as [|v values IH]; intros this Hh Hl.
  - simpl. repeat split; try done. exists []. split; [done|].
    intros x y _ Hy. by apply elem_of_nil in Hy.
  - rewrite replace_all_cons. simpl.
    destruct (replace_left_out v this Hh Hl) as (Hp & Hlow & Hmono).
    destruct (IH (replace v this).2) as (Hh' & Hl' & Hmono' & rest & Hp' & Hrest).
    { by apply replace_heap. }
    { by rewrite replace_length. }
    split; [done|]. split; [by rewrite Hl', replace_length|].
    split; [by eauto|].
    exists (left_out v this :: rest). split.
    + rewrite <- Permutation_middle, Hp'.
      rewrite app_comm_cons, Hp. simpl. apply Permutation_middle.
    + intros x y Hx [->|Hy]%elem_of_cons; [|by apply Hrest].
      by apply (Hmono' _ Hlow).
Qed.

Lemma filter_all {B : Type} (P : B → Prop) `{!∀ x, Decision (P x)} (l : list B) :
  (∀ x, x ∈ l → P x) → filter P l = l.
Proof.
  induction l as [|a l IH]; intros Hall; [done|].
  rewrite filter_cons_True by (apply Hall; left).
  f_equal. apply IH. intros x Hx. apply Hall. by right.
Qed.

Lemma held_fresh N : held (fresh N) = [].
Proof.
  unfold held, fresh. induction N as [|N IH]; [done|]. simpl.
  rewrite filter_cons_False; [done|]. unfold depth. simpl. lia.
Qed.

Lemma fresh_nonneg N x : x ∈ fresh N → 0 <= depth x.
Proof. unfold fresh. intros [-> _]%elem_of_replicate. done. Qed.

Lemma replace_all_fresh N values :
  (0 < N)%nat →
  heap (replace_all values (fresh N)).2
  ∧ length (replace_all values (fresh N)).2 = N
  ∧ (∀ x, x ∈ (replace_all values (fresh N)).2 → 0 <= depth x)
  ∧ top_of (held (replace_all values (fresh N)).2) (held values)
  ∧ length (held (replace_all values (fresh N)).2)
    = Nat.min N (length (held values)).
Proof.
  intros HN.
  destruct (replace_all_invariant values (fresh N) (heap_fresh N))
    as (Hh & Hl & Hmono & rest & Hp & Hrest).
  { unfold fresh. by rewrite length_replicate. }
  unfold fresh in Hl. rewrite length_replicate in Hl. fold (fresh N) in Hl.
  set (this := (replace_all values (fresh N)).2) in *.
  assert (held this ++ held rest ≡ₚ held values) as Hheld.
  { unfold held. rewrite <- list.filter_app, Hp, list.filter_app.
    fold (held (fresh N)). by rewrite held_fresh. }
  split; [done|]. split; [done|].
  split; [apply Hmono, fresh_nonneg|]. split.
  - exists (held rest). split; [done|].
    intros x y [_ Hx]%list_elem_of_filter [_ Hy]%list_elem_of_filter. eauto.
  - apply Permutation_length in Hheld. rewrite length_app in Hheld.
    pose proof (length_filter (λ e, 0 < depth e) this) as Hle.
    fold (held this) in Hle.
    destruct (held rest) as [|y rest'] eqn:Er; simpl in Hheld; [lia|].
    assert (y ∈ held rest) as [Hy Hyr]%list_elem_of_filter
      by (rewrite Er; left).
    assert (held this = this) as Hall.
    { apply filter_all. intros x Hx. specialize (Hrest x y Hx Hyr). lia. }
    rewrite Hall in *. lia.
Qed.

Lemma replace_iff_min value this :
  heap this → (replace value this).1 = true ↔ min_depth this < depth value.
Proof.
  intros Hh. by rewrite replace_result, compare_true, min_depth_front.
Qed.

(** C1 (as amended).  After any sequence of calls to [replace] on a
    default-constructed buffer of [N >= 1] slots: the array still has [N]
    slots, in heap order; its entries of positive depth are a selection of
    highest depth among the offered entries of positive depth, as many as
    there are up to [N]; no slot has a negative depth.  The next call admits
    its value exactly when the depth of the value exceeds the least depth in
    the array, and then evicts the front, a slot of least depth; while fewer
    than [N] entries of positive depth were offered every value of positive
    depth is admitted. *)
Theorem replace_all_keeps_top (N : nat) (values : list KeyedTTEntry) :
  (0 < N)%nat →
  let this := (replace_all values (fresh N)).2 in
  length this = N
  ∧ StdHeap.is_heap compare this = true
  ∧ top_of (held this) (filter (λ e, 0 < depth e) values)
  ∧ length (held this)
    = Nat.min N (length (filter (λ e, 0 < depth e) values))
  ∧ 0 <= min_depth this
  ∧ ∀ value,
      ((replace value this).1 = true ↔ min_depth this < depth value)
      ∧ ((replace value this).1 = true →
         depth (front this) = min_depth this
         ∧ front this :: (replace value this).2 ≡ₚ value :: this)
      ∧ ((length (filter (λ e, (0 < depth e)%Z) values) < N)%nat →
         0 < depth value → (replace value this).1 = true).
Proof.
  intros HN this.
  destruct (replace_all_fresh N values HN) as (Hh & Hl & Hnn & Htop & Hlen).
  fold this in Hh, Hl, Hnn, Htop, Hlen.
  split; [done|]. split; [by apply is_heap_heap|].
  split; [done|]. split; [done|]. split.
  { rewrite min_depth_front by done. apply Hnn.
    apply list_elem_of_lookup_total. exists 0%nat. split; [lia|done]. }
  intros value. split; [by apply replace_iff_min|]. split.
  - intros Hr. split; [by rewrite min_depth_front|].
    apply replace_admitted; [done|lia|done].
  - intros Hk Hv. apply replace_iff_min; [done|].
    destruct (decide (Forall (λ e, 0 < depth e) this)) as [Hall|Hex].
    + rewrite list.Forall_forall in Hall.
      unfold held in Hlen at 1. rewrite filter_all in Hlen by done.
      unfold held in Hlen. lia.
    + apply not_Forall_Exists in Hex; [|apply _].
      apply list.Exists_exists in Hex as (x & Hx & Hnp). simpl in Hnp.
      pose proof (min_depth_le this x Hx). lia.
Qed.

Lemma replace_all_keeps_top_witness :
  (0 < 2)%nat
  ∧ length (replace_all [entry_of_depth 1 5;
                         entry_of_depth 2 12;
                         entry_of_depth 3 9] (fresh 2)).2 = 2%nat.
Proof.
  split; [lia|].
  apply (replace_all_keeps_top 2 [entry_of_depth 1 5;
                                  entry_of_depth 2 12;
                                  entry_of_depth 3 9]).
  lia.
Defined.

(** C1 as stated fails on a buffer that has received nothing yet: an entry
    of depth 0 offered to a default-constructed [TTSendBuffer<32>] is not
    admitted and is not stored, although fewer than 32 entries were
    offered. *)
Lemma replace_rejects_below_capacity :
  (length [entry_of_depth 1%Z 0%Z] < TTSendBufferSize)%nat
  ∧ (replace (entry_of_depth 1 0) (fresh TTSendBufferSize)).1 = false
  ∧ (entry_of_depth 1 0)
      ∉ (replace (entry_of_depth 1 0) (fresh TTSendBufferSize)).2.
Proof.
  split; [unfold TTSendBufferSize; simpl; lia|]. split; [reflexivity|].
  change (replace (entry_of_depth 1 0) (fresh TTSendBufferSize)).2
    with (fresh TTSendBufferSize).
  unfold fresh. intros [Heq _]%elem_of_replicate. discriminate.
Qed.

(** C10.  [replace] keeps the number of slots in every case; when it
    returns false the array is unchanged; and on an array in heap order it
    returns false exactly when the depth of the value does not exceed the
    least depth in the array. *)
Theorem replace_rejection_atomic (value : KeyedTTEntry)
        (this : list KeyedTTEntry) :
  length (replace value this).2 = length this
  ∧ ((replace value this).1 = false → (replace value this).2 = this)
  ∧ (StdHeap.is_heap compare this = true →
     ((replace value this).1 = false ↔ depth value <= min_depth this)).
Proof.
  split; [apply replace_length|]. split; [apply replace_rejected|].
  intros Hh%is_heap_heap.
  rewrite replace_result, compare_false, min_depth_front by done. done.
Qed.

Lemma replace_rejection_atomic_witness :
  StdHeap.is_heap compare (fresh TTSendBufferSize) = true
  ∧ ((replace (entry_of_depth 7 0) (fresh TTSendBufferSize)).1 = false
     ↔ depth (entry_of_depth 7 0) <= min_depth (fresh TTSendBufferSize)).
Proof.
  split; [reflexivity|].
  apply (replace_rejection_atomic (entry_of_depth 7 0)
                                  (fresh TTSendBufferSize)).
  reflexivity.
Defined.






End ttsendbuffer_proofs.

(** ** The functions of the namespace *)

Section cluster_functions.
Import Cluster.

Lemma preferred_false a b :
  preferred a b = false ↔
  mi_depth a <= mi_depth b
  ∧ (mi_depth a = mi_depth b →
     mi_score a <= mi_score b
     ∧ (mi_score a = mi_score b → mi_rank b <= mi_rank a)).
Proof.
  unfold preferred.
  rewrite !orb_false_iff, !andb_false_iff, !orb_false_iff, !andb_false_iff.
  rewrite !Z.ltb_ge, !Z.eqb_neq. lia.
Qed.

Lemma preferred_irrefl a : preferred a a = false.
Proof. apply preferred_false. lia. Qed.

Lemma preferred_asym a b : preferred a b = true → preferred b a = false.
Proof.
  intros Hab. destruct (preferred b a) eqn:Hba; [|done].
  apply not_false_iff_true in Hab, Hba.
  rewrite preferred_false in Hab, Hba. lia.
Qed.

Lemma preferred_negtrans a b c :
  preferred a b = false → preferred b c = false → preferred a c = false.
Proof. rewrite !preferred_false. lia. Qed.

Lemma preferred_total a b :
  mi_rank a ≠ mi_rank b → preferred a b = false → preferred b a = false →
  False.
Proof. rewrite !preferred_false. lia. Qed.

Lemma foldl_keep_best others first :
  foldl keep_best first others ∈ first :: others
  ∧ ∀ x, x ∈ first :: others →
         preferred x (foldl keep_best first others) = false.
Proof.
  revert first. induction others as [|c others IH]; intros first; simpl.
  - split; [left|]. intros x ->%list_elem_of_singleton. apply preferred_irrefl.
  - destruct (IH (keep_best first c)) as [Hin Hmax]. split.
    + apply elem_of_cons in Hin as [->|Hin].
      * unfold keep_best. destruct (preferred c first); [right; left|left].
      * by do 2 right.
    + assert (preferred first (keep_best first c) = false
              ∧ preferred c (keep_best first c) = false) as [Hf Hc].
      { unfold keep_best. destruct (preferred c first) eqn:E.
        - split; [by apply preferred_asym|apply preferred_irrefl].
        - split; [apply preferred_irrefl|done]. }
      assert (preferred (keep_best first c)
                (foldl keep_best (keep_best first c) others) = false) as Hk
        by (apply Hmax; left).
      intros x [->|[->|Hx]%elem_of_cons]%elem_of_cons.
      * by apply preferred_negtrans with (keep_best first c).
      * by apply preferred_negtrans with (keep_best first c).
      * apply Hmax. by right.
Qed.

Lemma select_move_spec l m :
  select_move l = Some m →
  m ∈ l ∧ ∀ x, x ∈ l → preferred x m = false.
Proof.
  destruct l as [|first others]; [done|]. simpl. intros [= <-].
  apply foldl_keep_best.
Qed.

Lemma select_move_is_Some l : l ≠ [] → is_Some (select_move l).
Proof. destruct l; [done|]. simpl. eauto. Qed.

Lemma NoDup_fmap_inj {B C : Type} (f : B → C) (l : list B) x y :
  NoDup (f <$> l) → x ∈ l → y ∈ l → f x = f y → x = y.
Proof.
  induction l as [|a l IH]; simpl; [by intros _ ?%elem_of_nil|].
  intros [Hna Hnd]%NoDup_cons [->|Hx]%elem_of_cons [->|Hy]%elem_of_cons Hf;
    [done| | |by apply IH].
  - destruct Hna. rewrite Hf. by apply list_elem_of_fmap_2.
  - destruct Hna. rewrite <- Hf. by apply list_elem_of_fmap_2.
Qed.

(** C2.  The [pick_moves] of the build without MPI leaves its argument as
    it is.  The selection of the distributed build does not depend on the
    order of arrival: two gatherings of the same candidates, one for every
    rank, select the same candidate; a candidate is selected whenever there
    is one; and the selected one has the greatest depth, among those the
    greatest score, among those the lowest rank. *)
Theorem pick_moves_deterministic :
  (∀ mi w, pick_moves mi w = (mi, w))
  ∧ (∀ l1 l2, l1 ≡ₚ l2 → NoDup (mi_rank <$> l1) →
              select_move l1 = select_move l2)
  ∧ (∀ l, l ≠ [] → is_Some (select_move l))
  ∧ (∀ l m, select_move l = Some m →
       m ∈ l
       ∧ ∀ x, x ∈ l →
           mi_depth x <= mi_depth m
           ∧ (mi_depth x = mi_depth m →
              mi_score x <= mi_score m
              ∧ (mi_score x = mi_score m → mi_rank m <= mi_rank x))).
Proof.
  split; [done|]. split; [|split; [apply select_move_is_Some|]].
  - intros l1 l2 Hp Hnd.
    destruct (select_move l1) as [m1|] eqn:E1.
    + destruct (select_move_is_Some l2) as [m2 E2].
      { intros ->. apply Permutation_nil_r in Hp. by subst. }
      rewrite E2. f_equal.
      apply select_move_spec in E1 as [Hin1 Hmax1].
      apply select_move_spec in E2 as [Hin2 Hmax2].
      rewrite <- Hp in Hin2.
      apply (NoDup_fmap_inj mi_rank l1); [done..|].
      destruct (decide (mi_rank m1 = mi_rank m2)) as [|Hne]; [done|].
      destruct (preferred_total m1 m2 Hne).
      * apply Hmax2. by rewrite <- Hp.
      * by apply Hmax1.
    + destruct l1; [|done]. apply Permutation_nil_l in Hp. by subst.
  - intros l m [Hin Hmax]%select_move_spec. split; [done|].
    intros x Hx. by apply preferred_false, Hmax.
Qed.

Lemma pick_moves_deterministic_witness :
  [mkMoveInfo 10 20 35 0; mkMoveInfo 11 20 35 1]
    ≡ₚ [mkMoveInfo 11 20 35 1; mkMoveInfo 10 20 35 0]
  ∧ NoDup (mi_rank <$> [mkMoveInfo 10 20 35 0; mkMoveInfo 11 20 35 1])
  ∧ select_move [mkMoveInfo 10 20 35 0; mkMoveInfo 11 20 35 1]
    = select_move [mkMoveInfo 11 20 35 1; mkMoveInfo 10 20 35 0].
Proof.
  assert ([mkMoveInfo 10 20 35 0; mkMoveInfo 11 20 35 1]
            ≡ₚ [mkMoveInfo 11 20 35 1; mkMoveInfo 10 20 35 0]) as Hp
    by apply Permutation_swap.
  assert (NoDup (mi_rank <$> [mkMoveInfo 10 20 35 0; mkMoveInfo 11 20 35 1]))
    as Hnd.
  { simpl. apply NoDup_cons. split; [|apply NoDup_singleton].
    intros Hin%list_elem_of_singleton. discriminate. }
  split; [exact Hp|]. split; [exact Hnd|].
  exact (proj1 (proj2 pick_moves_deterministic) _ _ Hp Hnd).
Defined.

(** C3.  In the build without MPI, [save] is the write [tte->save] with
    the same arguments: the same result and the same state.  The slot [tte]
    points to is rewritten by [TTEntry::save]; the send buffers and the stop
    request are as before. *)
Theorem save_is_local_write
        (TTEntry_save :
           Key → Value → Bound → Depth → Move → Value → TTEntry → TTEntry)
        (thread : Thread) (tte : TTEntry_ptr) (k : Key) (v : Value)
        (b : Bound) (d : Depth) (m : Move) (ev : Value) (w : World) :
  save TTEntry_save thread tte k v b d m ev w
  = TTEntry_save_at TTEntry_save tte k v b d m ev w
  ∧ tt_slots (save TTEntry_save thread tte k v b d m ev w).2
    = alter (TTEntry_save k v b d m ev) tte (tt_slots w)
  ∧ send_buffers (save TTEntry_save thread tte k v b d m ev w).2
    = send_buffers w
  ∧ stop (save TTEntry_save thread tte k v b d m ev w).2 = stop w.
Proof. done. Qed.

(** C4.  In the build without MPI, after any sequence of calls to the
    functions of the namespace, from any state, [size()] returns 1,
    [rank()] returns 0 and [is_root()] returns true, and none of them
    changes the state. *)
Theorem single_process_topology
        (TTEntry_save :
           Key → Value → Bound → Depth → Move → Value → TTEntry → TTEntry)
        (cs : list call) (w : World) :
  size (exec_all TTEntry_save cs w).2 = (1, (exec_all TTEntry_save cs w).2)
  ∧ rank (exec_all TTEntry_save cs w).2 = (0, (exec_all TTEntry_save cs w).2)
  ∧ is_root (exec_all TTEntry_save cs w).2
    = (true, (exec_all TTEntry_save cs w).2).
Proof. done. Qed.

Lemma extract_line_Some s line rest :
  extract_line s = (line, Some rest) →
  s = (line ++ String newline rest)%string
  ∧ has_newline line = false ∧ has_newline s = true.
Proof.
  revert line. induction s as [|c s IH]; intros line; simpl; [done|].
  destruct (Ascii.eqb_spec c newline) as [->|Hne].
  - by intros [= <- <-].
  - destruct (extract_line s) as [line' rest'] eqn:E.
    intros [= <- ->]. destruct (IH line' eq_refl) as (-> & Hl & Hs).
    simpl. destruct (Ascii.eqb_spec c newline); done.
Qed.

Lemma extract_line_None s line :
  extract_line s = (line, None) → s = line ∧ has_newline s = false.
Proof.
  revert line. induction s as [|c s IH]; intros line; simpl.
  - by intros [= <-].
  - destruct (Ascii.eqb_spec c newline) as [->|Hne]; [done|].
    destruct (extract_line s) as [line' rest'] eqn:E.
    intros [= <- ->]. destruct (IH line' eq_refl) as [-> Hs]. done.
Qed.

(** C5.  [getline] returns false exactly when the stream is at its end or
    the read fails; when it returns true the string holds the line read:
    the characters of the stream up to the first newline, which is consumed,
    or all of them when the stream ends without one.  In the distributed
    build every rank receives the result and the line of the root. *)
Theorem getline_result (input : istream) (str : string) :
  ((getline input str).1.1 = false ↔
   end_of_stream input = true ∨ read_fails input = true)
  ∧ ((getline input str).1.1 = true →
     has_newline (getline input str).2 = false
     ∧ (pending input
        = ((getline input str).2 ++
           String newline (pending (getline input str).1.2))%string
        ∨ (pending input = (getline input str).2
           ∧ pending (getline input str).1.2 = EmptyString)))
  ∧ ∀ strs r, r ∈ (mpi_getline input strs).1 →
      r = ((getline input (strs !!! 0%nat)).1.1,
           (getline input (strs !!! 0%nat)).2).
Proof.
  split; [|split].
  - unfold getline, std_getline, end_of_stream, read_fails, good,
      istream_bool, fail.
    destruct input as [p src e f b]. simpl.
    destruct e, f, b; simpl; try (split; [auto|done]).
    destruct (extract_line p) as [line [rest|]] eqn:E; simpl.
    + apply extract_line_Some in E as (-> & Hl & Hs). rewrite Hs. simpl.
      destruct line; simpl; destruct src; split; try done; by intros [|].
    + apply extract_line_None in E as [-> Hs]. rewrite Hs. simpl.
      destruct src; simpl.
      * rewrite orb_false_r, andb_true_r, negb_false_iff.
        split; [auto|by intros [|]].
      * rewrite orb_true_r. simpl. split; [auto|done].
  - unfold getline, std_getline, good, istream_bool, fail.
    destruct input as [p src e f b]. simpl.
    destruct e, f, b; simpl; try done.
    destruct (extract_line p) as [line [rest|]] eqn:E; simpl.
    + apply extract_line_Some in E as (-> & Hl & Hs).
      intros _. split; [done|]. by left.
    + apply extract_line_None in E as [-> Hs].
      destruct src; simpl; [|by rewrite orb_true_r].
      intros _. split; [done|]. by right.
  - intros strs r. unfold mpi_getline.
    destruct (getline input (strs !!! 0%nat)) as [[ok input'] line]. simpl.
    by intros (_ & -> & _)%list_elem_of_fmap.
Qed.

Lemma getline_result_witness :
  (getline (mkIstream "go" at_eof false false false) "").1.1 = true
  ∧ has_newline (getline (mkIstream "go" at_eof false false false) "").2
    = false.
Proof.
  split; [reflexivity|].
  apply (proj1 (proj2 (getline_result
                         (mkIstream "go" at_eof false false false) ""))
               eq_refl).
Defined.

(** C6 (as amended).  [signals_poll] returns no value: a function of its
    declared type [void signals_poll()] has a single possible result, and
    the one defined in the build without MPI leaves the state, the stop
    request included, as it is. *)
Theorem signals_poll_returns_nothing (w : World) :
  signals_poll w = (tt, w)
  ∧ ∀ declared : Run unit, (declared w).1 = tt.
Proof. split; [done|]. intros declared. by destruct (declared w).1. Qed.

(** C6 as stated fails: the result of [signals_poll] is the same whether a
    stop was requested or not, so no reading of it tells the two apart. *)
Lemma signals_poll_no_stop_indication :
  ¬ ∃ indicates : unit → bool,
      indicates (signals_poll (mkWorld ∅ ∅ true)).1 = true
      ∧ indicates (signals_poll (mkWorld ∅ ∅ false)).1 = false.
Proof. intros (indicates & H1 & H2). simpl in *. congruence. Qed.

End cluster_functions.

(** * Further properties *)

(** ** Bit fields: values, overwriting and independence *)


Section pawns_fields.
Import Pawns.

Lemma value_bits_le T : value_bits T <= arith_bits T.
Proof. by destruct T. Qed.

(** [get_bits] is defined exactly on the valid shift counts for which the
    mask can be computed. *)
Lemma field_mask_is_Some T len :
  is_Some (field_mask T len) ↔ 0 <= len < value_bits T.
Proof.
  split.
  - intros [m Hm]. pose proof Hm as Hm'.
    apply field_mask_Some_inv in Hm as [Hl ->].
    split; [lia|]. unfold field_mask in Hm'.
    destruct (shl T 1 len) as [m1|] eqn:E; [|done].
    apply shl_Some_inv in E as [_ E]. rewrite Z.shiftl_1_l in E.
    unfold arith, value_bits, arith_bits in *.
    destruct (promoted T).
    + destruct (_ && _) eqn:E2; [|done].
      apply andb_prop in E2 as [_ Hlt%Z.ltb_lt]. unfold int_bits in *.
      destruct (Z.lt_ge_cases len (32 - 1)) as [|Hge]; [done|].
      apply (Z.pow_le_mono_r 2) in Hge; lia.
    + lia.
  - intros Hl. unfold field_mask.
    assert (0 < 2 ^ len) by (apply Z.pow_pos_nonneg; lia).
    assert (2 ^ len < 2 ^ value_bits T) by (apply Z.pow_lt_mono_r; lia).
    pose proof (value_bits_le T).
    rewrite shl_small by lia. simpl. rewrite Z.mul_1_l.
    rewrite arith_small by lia. eauto.
Qed.

Lemma get_bits_is_Some T w pos len :
  is_Some (get_bits T w pos len)
  ↔ 0 <= pos < arith_bits T ∧ 0 <= len < value_bits T.
Proof.
  unfold get_bits, shr. rewrite <- field_mask_is_Some.
  destruct ((0 <=? pos) && (pos <? arith_bits T)) eqn:E; simpl.
  - apply shift_count_valid in E.
    destruct (field_mask T len) as [m|]; simpl.
    + split; [intros _; split; [done|by eexists]|intros _; by eexists].
    + split; [by intros [? ?]|by intros [_ [? ?]]].
  - split; [by intros [? ?]|]. intros [Hp _].
    apply shift_count_valid in Hp. congruence.
Qed.

Lemma get_bits_Some T w pos len r :
  get_bits T w pos len = Some r →
  r = to_T T (Z.land (Z.shiftr w pos) (Z.ones len))
  ∧ 0 <= pos < arith_bits T ∧ 0 <= len < value_bits T.
Proof.
  intros Hr. pose proof (proj1 (get_bits_is_Some T w pos len) (mk_is_Some _ _ Hr))
    as [Hp Hl].
  split; [|done]. unfold get_bits in Hr. rewrite shr_defined in Hr by done.
  simpl in Hr. destruct (field_mask T len) as [m|] eqn:Em; [|done].
  apply field_mask_Some_inv in Em as [_ ->]. simpl in Hr. congruence.
Qed.

Lemma land_ones_range a n : 0 <= n → 0 <= Z.land a (Z.ones n) < 2 ^ n.
Proof. intros Hn. rewrite Z.land_ones by done. apply Z.mod_pos_bound.
  apply Z.pow_pos_nonneg; lia. Qed.

Lemma to_T_small T x : 0 <= x < 2 ^ bits T → to_T T x = x.
Proof. intros. unfold to_T. by apply Z.mod_small. Qed.

End pawns_fields.

Section pawns_value.
Import Pawns.

Lemma get_bits_div_mod T w pos len :
  0 <= pos < arith_bits T → 0 <= len < value_bits T → len <= bits T →
  get_bits T w pos len = Some ((w / 2 ^ pos) mod 2 ^ len).
Proof.
  intros Hp Hl Hb.
  assert (0 < 2 ^ len) by (apply Z.pow_pos_nonneg; lia).
  destruct (proj2 (get_bits_is_Some T w pos len)) as [r Hr]; [done|].
  rewrite Hr. apply get_bits_Some in Hr as [-> _]. f_equal.
  pose proof (land_ones_range (Z.shiftr w pos) len ltac:(lia)).
  assert (2 ^ len <= 2 ^ bits T) by (apply Z.pow_le_mono_r; lia).
  rewrite to_T_small by lia.
  rewrite Z.land_ones, Z.shiftr_div_pow2 by lia. done.
Qed.

Lemma field_range w pos len :
  0 <= len → 0 <= (w / 2 ^ pos) mod 2 ^ len < 2 ^ len.
Proof. intros. apply Z.mod_pos_bound, Z.pow_pos_nonneg; lia. Qed.

End pawns_value.

(** X1.  [get_bits] has a defined result exactly when [pos] is a valid
    shift count and the mask [(T(1) << len) - 1] can be computed; for a
    field no longer than the word the result is [(w / 2^pos) mod 2^len],
    a value below [2^len]. *)
Theorem get_bits_value T w pos len :
  (is_Some (Pawns.get_bits T w pos len)
   ↔ 0 <= pos < Pawns.arith_bits T ∧ 0 <= len < Pawns.value_bits T)
  ∧ (0 <= pos < Pawns.arith_bits T → 0 <= len < Pawns.value_bits T →
     len <= Pawns.bits T →
     Pawns.get_bits T w pos len = Some ((w / 2 ^ pos) mod 2 ^ len)
     ∧ 0 <= (w / 2 ^ pos) mod 2 ^ len < 2 ^ len).
Proof.
  split; [apply get_bits_is_Some|]. intros Hp Hl Hb.
  split; [by apply get_bits_div_mod|apply field_range; lia].
Qed.

Section pawns_set.
Import Pawns.

Lemma set_bits_Some_counts T w pos len val w' :
  set_bits T w pos len val = Some w' →
  0 <= pos < arith_bits T ∧ 0 <= len < value_bits T.
Proof.
  unfold set_bits. intros Hs.
  destruct (shl T val pos) as [v|] eqn:Ev; [|done]. simpl in Hs.
  destruct (field_mask T len) as [m|] eqn:Em; [|done].
  apply shl_Some_inv in Ev as [Hp _].
  split; [done|]. apply field_mask_is_Some. by eexists.
Qed.

(** Whether [set_bits] is defined does not depend on the word. *)
Lemma set_bits_defined_indep T w w0 pos len val :
  is_Some (set_bits T w pos len val) → is_Some (set_bits T w0 pos len val).
Proof.
  unfold set_bits.
  destruct (shl T val pos) as [v|]; simpl; [|done].
  destruct (field_mask T len) as [m|]; simpl; [|done].
  destruct (shl T m pos) as [mp|]; simpl; [|done]. eauto.
Qed.

Lemma set_bits_none_indep T w w0 pos len val :
  set_bits T w pos len val = None → set_bits T w0 pos len val = None.
Proof.
  intros Hn. destruct (set_bits T w0 pos len val) eqn:E; [|done].
  destruct (set_bits_defined_indep T w0 w pos len val) as [x Hx]; [by eexists|].
  congruence.
Qed.

Lemma set_bits_high T w pos len val w' i :
  set_bits T w pos len val = Some w' → ¬ (0 <= i < bits T) →
  Z.testbit w' i = false.
Proof.
  unfold set_bits. intros Hs Hi.
  destruct (shl T val pos) as [v|]; [|done]. simpl in Hs.
  destruct (field_mask T len) as [m|]; [|done]. simpl in Hs.
  destruct (shl T m pos) as [mp|]; [|done]. simpl in Hs.
  injection Hs as <-. rewrite to_T_testbit.
  destruct (Z.ltb_spec i (bits T)); [|done].
  rewrite Z.testbit_neg_r by lia. done.
Qed.

(** Two words that [set_bits] returns are equal when they agree on the bits
    within the width. *)
Lemma set_bits_results_eq T w1 p1 l1 v1 r1 w2 p2 l2 v2 r2 :
  set_bits T w1 p1 l1 v1 = Some r1 → set_bits T w2 p2 l2 v2 = Some r2 →
  (∀ i, 0 <= i < bits T → Z.testbit r1 i = Z.testbit r2 i) → r1 = r2.
Proof.
  intros H1 H2 Hagree. apply Z.bits_inj'. intros i Hi.
  destruct (Z.lt_ge_cases i (bits T)).
  - apply Hagree. lia.
  - rewrite (set_bits_high _ _ _ _ _ _ i H1), (set_bits_high _ _ _ _ _ _ i H2)
      by lia. done.
Qed.

Lemma get_bits_testbit T w pos len r n :
  get_bits T w pos len = Some r → 0 <= n →
  Z.testbit r n = (n <? bits T) && (n <? len) && Z.testbit w (n + pos).
Proof.
  intros [-> [Hp Hl]]%get_bits_Some Hn.
  rewrite to_T_testbit, Z.land_spec, Z.shiftr_spec by done.
  destruct (Z.ltb_spec n len).
  - rewrite Z.ones_spec_low by lia. by rewrite andb_true_r, andb_true_r.
  - rewrite Z.ones_spec_high by lia. by rewrite !andb_false_r.
Qed.

Lemma get_bits_ext T w w' pos len :
  0 <= pos →
  (∀ i, pos <= i < pos + len → i < pos + bits T →
        Z.testbit w' i = Z.testbit w i) →
  get_bits T w' pos len = get_bits T w pos len.
Proof.
  intros Hp Hagree.
  destruct (get_bits T w pos len) as [r|] eqn:Er.
  - destruct (proj2 (get_bits_is_Some T w' pos len)) as [r' Er'].
    { apply (get_bits_is_Some T w). by eexists. }
    rewrite Er'. f_equal. apply Z.bits_inj'. intros n Hn.
    rewrite (get_bits_testbit _ _ _ _ _ n Er'), (get_bits_testbit _ _ _ _ _ n Er)
      by done.
    destruct (Z.ltb_spec n (bits T)); [|done].
    destruct (Z.ltb_spec n len); [|done]. simpl. apply Hagree; lia.
  - destruct (get_bits T w' pos len) as [r'|] eqn:Er'; [|done].
    assert (is_Some (get_bits T w pos len)) as [? ?]; [|congruence].
    apply (get_bits_is_Some T w), (get_bits_is_Some T w'). by eexists.
Qed.

Lemma get_bits_after_set_bits T w p1 l1 val w' p2 l2 :
  set_bits T w p1 l1 val = Some w' →
  0 <= p2 → p2 + l2 <= bits T → p1 + l1 <= p2 ∨ p2 + l2 <= p1 →
  get_bits T w' p2 l2 = get_bits T w p2 l2.
Proof.
  intros Hs Hp2 Hb Hdisj. apply get_bits_ext; [done|]. intros i Hi _.
  destruct (set_bits_testbit T w p1 l1 val w' i Hs) as (_ & _ & ->); [lia|].
  destruct (Z.leb_spec p1 i), (Z.ltb_spec i (p1 + l1)); simpl; done || lia.
Qed.

End pawns_set.

Section pawns_truncate.
Import Pawns.

Lemma set_bits_truncates_field T w pos len val w' :
  set_bits T w pos len val = Some w' → pos + len <= bits T →
  get_bits T w' pos len = Some (val mod 2 ^ len).
Proof.
  intros Hs Hb.
  destruct (set_bits_Some_counts _ _ _ _ _ _ Hs) as [Hp Hl].
  destruct (proj2 (get_bits_is_Some T w' pos len)) as [r Hr]; [done|].
  rewrite Hr. f_equal. apply Z.bits_inj'. intros n Hn.
  rewrite (get_bits_testbit _ _ _ _ _ n Hr) by done.
  destruct (Z.ltb_spec n len).
  - destruct (Z.ltb_spec n (bits T)); [simpl|lia].
    destruct (set_bits_testbit T w pos len val w' (n + pos) Hs) as (_ & _ & ->);
      [lia|].
    destruct (Z.leb_spec pos (n + pos)); [|lia].
    destruct (Z.ltb_spec (n + pos) (pos + len)); [|lia]. simpl.
    rewrite Z.mod_pow2_bits_low by lia. f_equal. lia.
  - rewrite andb_false_r. simpl. by rewrite Z.mod_pow2_bits_high by lia.
Qed.

End pawns_truncate.

(** X2.  Whenever [set_bits] is defined on a field that fits the word,
    [get_bits] on that field reads [val mod 2^len]: the bits of [val] above
    the length of the field are dropped. *)
Theorem set_bits_truncates T w pos len val w' :
  Pawns.set_bits T w pos len val = Some w' → pos + len <= Pawns.bits T →
  Pawns.get_bits T w' pos len = Some (val mod 2 ^ len).
Proof. apply set_bits_truncates_field. Qed.

Lemma set_bits_truncates_witness :
  Pawns.set_bits Pawns.uint64_t 0 46 4 25 = Some (9 * 2 ^ 46)
  ∧ 46 + 4 <= Pawns.bits Pawns.uint64_t
  ∧ Pawns.get_bits Pawns.uint64_t (9 * 2 ^ 46) 46 4 = Some (25 mod 2 ^ 4).
Proof.
  assert (46 + 4 <= Pawns.bits Pawns.uint64_t) as Hb by (cbv; discriminate).
  split; [reflexivity|]. split; [exact Hb|].
  exact (set_bits_truncates Pawns.uint64_t 0 46 4 25 _ eq_refl Hb).
Defined.

(** X3.  Whenever [set_bits] is defined, [get_bits] on any field within
    the word that does not overlap the written one returns what it returned
    before the write. *)
Theorem set_bits_other_field T w p1 l1 val w' p2 l2 :
  Pawns.set_bits T w p1 l1 val = Some w' →
  0 <= p2 → p2 + l2 <= Pawns.bits T → p1 + l1 <= p2 ∨ p2 + l2 <= p1 →
  Pawns.get_bits T w' p2 l2 = Pawns.get_bits T w p2 l2.
Proof. apply get_bits_after_set_bits. Qed.

Lemma set_bits_other_field_witness :
  Pawns.set_bits Pawns.uint64_t (5 * 2 ^ 50) 46 4 9
  = Some (5 * 2 ^ 50 + 9 * 2 ^ 46)
  ∧ (0 <= 50 ∧ 50 + 4 <= Pawns.bits Pawns.uint64_t
     ∧ (46 + 4 <= 50 ∨ 50 + 4 <= 46))
  ∧ Pawns.get_bits Pawns.uint64_t (5 * 2 ^ 50 + 9 * 2 ^ 46) 50 4
    = Pawns.get_bits Pawns.uint64_t (5 * 2 ^ 50) 50 4.
Proof.
  assert (50 + 4 <= Pawns.bits Pawns.uint64_t) as Hb by (cbv; discriminate).
  split; [reflexivity|].
  split; [split; [lia|split; [exact Hb|left; lia]]|].
  apply (set_bits_other_field Pawns.uint64_t (5 * 2 ^ 50) 46 4 9 _ 50 4
           eq_refl); [lia|exact Hb|left; lia].
Defined.

(** X4.  A second [set_bits] on the same field overwrites the first: the
    result is the one of the second write alone. *)
Theorem set_bits_last_write T w pos len v1 v2 w1 :
  Pawns.set_bits T w pos len v1 = Some w1 →
  Pawns.set_bits T w1 pos len v2 = Pawns.set_bits T w pos len v2.
Proof.
  intros H1. destruct (Pawns.set_bits T w pos len v2) as [r|] eqn:E2.
  - destruct (set_bits_defined_indep T w w1 pos len v2) as [r' E']; [by eexists|].
    rewrite E'. f_equal.
    apply (set_bits_results_eq _ _ _ _ _ _ _ _ _ _ _ E' E2). intros i Hi.
    destruct (set_bits_testbit T w1 pos len v2 r' i E' Hi) as (_ & _ & ->).
    destruct (set_bits_testbit T w pos len v2 r i E2 Hi) as (_ & _ & ->).
    destruct ((pos <=? i) && (i <? pos + len)) eqn:E; [done|].
    destruct (set_bits_testbit T w pos len v1 w1 i H1 Hi) as (_ & _ & ->).
    by rewrite E.
  - by apply (set_bits_none_indep T w).
Qed.

Lemma set_bits_last_write_witness :
  Pawns.set_bits Pawns.uint64_t 0 46 4 9 = Some (9 * 2 ^ 46)
  ∧ Pawns.set_bits Pawns.uint64_t (9 * 2 ^ 46) 46 4 3
    = Pawns.set_bits Pawns.uint64_t 0 46 4 3.
Proof.
  split; [reflexivity|].
  exact (set_bits_last_write Pawns.uint64_t 0 46 4 9 3 _ eq_refl).
Defined.

(** X5.  Writing back to a field the value [get_bits] reads from it leaves
    a word of [T] as it is. *)
Theorem set_bits_write_back T w pos len v :
  0 <= w < 2 ^ Pawns.bits T → pos + len <= Pawns.bits T →
  Pawns.get_bits T w pos len = Some v →
  Pawns.set_bits T w pos len v = Some w.
Proof.
  intros Hw Hb Hg. pose proof Hg as [Hv [Hp Hl]]%get_bits_Some.
  pose proof (value_bits_le T).
  assert (0 <= v < 2 ^ len) as Hvr.
  { pose proof (field_range w pos len ltac:(lia)).
    rewrite get_bits_div_mod in Hg by (done || lia). congruence. }
  destruct (set_bits_defined T w pos len v) as [w' Hs]; [lia|lia|done|done|].
  rewrite Hs. f_equal. apply Z.bits_inj'. intros i Hi.
  destruct (Z.lt_ge_cases i (Pawns.bits T)).
  - destruct (set_bits_testbit T w pos len v w' i Hs) as (_ & _ & ->); [lia|].
    destruct ((pos <=? i) && (i <? pos + len)) eqn:E; [|done].
    apply andb_prop in E as [?%Z.leb_le ?%Z.ltb_lt].
    rewrite (get_bits_testbit _ _ _ _ _ (i - pos) Hg) by lia.
    destruct (Z.ltb_spec (i - pos) (Pawns.bits T)); [|lia].
    destruct (Z.ltb_spec (i - pos) len); [|lia]. simpl. f_equal. lia.
  - rewrite (set_bits_high _ _ _ _ _ _ i Hs) by lia.
    symmetry. rewrite <- (Z.mod_small w (2 ^ Pawns.bits T)) by done.
    apply Z.mod_pow2_bits_high. pose proof (bits_pos T). lia.
Qed.

Lemma set_bits_write_back_witness :
  (0 <= 9 * 2 ^ 46 < 2 ^ Pawns.bits Pawns.uint64_t
   ∧ 46 + 4 <= Pawns.bits Pawns.uint64_t
   ∧ Pawns.get_bits Pawns.uint64_t (9 * 2 ^ 46) 46 4 = Some 9)
  ∧ Pawns.set_bits Pawns.uint64_t (9 * 2 ^ 46) 46 4 9 = Some (9 * 2 ^ 46).
Proof.
  assert (0 <= 9 * 2 ^ 46 < 2 ^ Pawns.bits Pawns.uint64_t) as Hw
    by (change (Pawns.bits Pawns.uint64_t) with 64; lia).
  assert (46 + 4 <= Pawns.bits Pawns.uint64_t) as Hb by (cbv; discriminate).
  split; [split; [exact Hw|split; [exact Hb|reflexivity]]|].
  exact (set_bits_write_back Pawns.uint64_t (9 * 2 ^ 46) 46 4 9 Hw Hb eq_refl).
Defined.

(** X6.  Two [set_bits] on fields that do not overlap give the same
    result in either order, and are defined in one order exactly when they
    are in the other. *)
Theorem set_bits_commute T w p1 l1 v1 p2 l2 v2 :
  p1 + l1 <= p2 ∨ p2 + l2 <= p1 →
  (Pawns.set_bits T w p1 l1 v1 ≫= λ w', Pawns.set_bits T w' p2 l2 v2)
  = (Pawns.set_bits T w p2 l2 v2 ≫= λ w', Pawns.set_bits T w' p1 l1 v1).
Proof.
  intros Hdisj.
  destruct (Pawns.set_bits T w p1 l1 v1) as [a|] eqn:Ea;
    destruct (Pawns.set_bits T w p2 l2 v2) as [b|] eqn:Eb; simpl.
  - destruct (set_bits_defined_indep T w a p2 l2 v2) as [ab Eab]; [by eexists|].
    destruct (set_bits_defined_indep T w b p1 l1 v1) as [ba Eba]; [by eexists|].
    rewrite Eab, Eba. f_equal.
    apply (set_bits_results_eq _ _ _ _ _ _ _ _ _ _ _ Eab Eba). intros i Hi.
    destruct (set_bits_testbit T a p2 l2 v2 ab i Eab Hi) as (_ & Hl2 & ->).
    destruct (set_bits_testbit T b p1 l1 v1 ba i Eba Hi) as (_ & Hl1 & ->).
    destruct (set_bits_testbit T w p1 l1 v1 a i Ea Hi) as (_ & _ & ->).
    destruct (set_bits_testbit T w p2 l2 v2 b i Eb Hi) as (_ & _ & ->).
    destruct (Z.leb_spec p1 i), (Z.ltb_spec i (p1 + l1)),
      (Z.leb_spec p2 i), (Z.ltb_spec i (p2 + l2)); simpl; done || lia.
  - by apply (set_bits_none_indep T w).
  - symmetry. by apply (set_bits_none_indep T w).
  - done.
Qed.

Lemma set_bits_commute_witness :
  (46 + 4 <= 50 ∨ 50 + 4 <= 46)
  ∧ (Pawns.set_bits Pawns.uint64_t 0 46 4 9
       ≫= λ w', Pawns.set_bits Pawns.uint64_t w' 50 4 5)
    = (Pawns.set_bits Pawns.uint64_t 0 50 4 5
         ≫= λ w', Pawns.set_bits Pawns.uint64_t w' 46 4 9).
Proof.
  split; [left; lia|].
  apply (set_bits_commute Pawns.uint64_t 0 46 4 9 50 4 5). left. lia.
Defined.

(** ** [ColorData] and [Entry] *)


Section color_data_proofs.
Import Pawns.

Lemma get_bits_u64 w pos len :
  0 <= pos < 64 → 0 <= len < 64 →
  get_bits uint64_t w pos len = Some ((w / 2 ^ pos) mod 2 ^ len).
Proof.
  intros Hp Hl. apply get_bits_div_mod; [exact Hp|exact Hl|simpl; lia].
Qed.

Lemma to_int_small x : 0 <= x < 2 ^ 31 → to_int x = x.
Proof.
  intros Hx. unfold to_int, int_bits.
  rewrite Z.mod_small; [lia|]. change (2 ^ (32 - 1)) with (2 ^ 31).
  change (2 ^ 32) with (2 * 2 ^ 31). lia.
Qed.

Lemma int_result_small x : - 2 ^ 31 <= x < 2 ^ 31 → int_result x = Some x.
Proof.
  intros Hx. unfold int_result, int_bits. change (2 ^ (32 - 1)) with (2 ^ 31).
  destruct (Z.leb_spec (- 2 ^ 31) x), (Z.ltb_spec x (2 ^ 31)); simpl; done || lia.
Qed.

Lemma shl_int_small x n :
  0 <= n < 32 → 0 <= x → x * 2 ^ n < 2 ^ 31 → shl_int x n = Some (x * 2 ^ n).
Proof.
  intros Hn Hx Hs. unfold shl_int, int_bits.
  destruct (Z.leb_spec 0 n), (Z.ltb_spec n 32), (Z.leb_spec 0 x); try lia.
  simpl. rewrite Z.shiftl_mul_pow2 by lia. apply int_result_small.
  assert (0 <= x * 2 ^ n) by (apply Z.mul_nonneg_nonneg; [done|apply Z.pow_nonneg; lia]).
  lia.
Qed.

Lemma shl_u64_small x n :
  0 <= n < 64 → 0 <= x → x * 2 ^ n < 2 ^ 64 →
  shl uint64_t x n = Some (x * 2 ^ n).
Proof. intros. by apply shl_small. Qed.

(** A field read as [int]. *)
Lemma read_int w pos len :
  0 <= pos < 64 → 0 <= len < 31 →
  (get_bits uint64_t w pos len ≫= λ a, Some (to_int a))
  = Some ((w / 2 ^ pos) mod 2 ^ len).
Proof.
  intros Hp Hl. rewrite get_bits_u64 by lia. cbn [mbind option_bind]. f_equal.
  pose proof (field_range w pos len ltac:(lia)).
  assert (2 ^ len < 2 ^ 31) by (apply Z.pow_lt_mono_r; lia).
  apply to_int_small. lia.
Qed.

Lemma pawn_score_parts_value cd :
  pawn_score_parts cd
  = Some (w0 cd mod 2 ^ 11 - 1024, (w0 cd / 2 ^ 11) mod 2 ^ 11 - 1024).
Proof.
  pose proof (field_range (w0 cd) 0 11 ltac:(lia)) as H0.
  pose proof (field_range (w0 cd) 11 11 ltac:(lia)) as H1.
  unfold pawn_score_parts. rewrite get_bits_u64 by lia. cbn [mbind option_bind].
  rewrite to_int_small by lia.
  change (Z.shiftl 1 10) with 1024.
  rewrite int_result_small by lia. cbn [mbind option_bind].
  rewrite get_bits_u64 by lia. cbn [mbind option_bind].
  rewrite to_int_small by lia.
  rewrite int_result_small by lia. cbn [mbind option_bind].
  change (2 ^ 0) with 1. by rewrite Z.div_1_r.
Qed.

Lemma king_safety_parts_value cd :
  king_safety_parts cd
  = Some ((w2 cd / 2 ^ 48) mod 2 ^ 13 - 4096,
          -16 * ((w2 cd / 2 ^ 61) mod 2 ^ 3)).
Proof.
  pose proof (field_range (w2 cd) 48 13 ltac:(lia)) as H0.
  pose proof (field_range (w2 cd) 61 3 ltac:(lia)) as H1.
  unfold king_safety_parts. rewrite get_bits_u64 by lia. cbn [mbind option_bind].
  rewrite to_int_small by lia.
  change (Z.shiftl 1 12) with 4096.
  rewrite int_result_small by lia. cbn [mbind option_bind].
  rewrite get_bits_u64 by lia. cbn [mbind option_bind].
  rewrite to_int_small by lia.
  rewrite int_result_small by lia. done.
Qed.

Lemma castling_rights_value Us cd :
  castling_rights Us cd
  = Some ((w0 cd / 2 ^ 54) mod 2 ^ 2
          * match Us with WHITE => 1 | BLACK => 4 end).
Proof.
  pose proof (field_range (w0 cd) 54 2 ltac:(lia)) as H0.
  unfold castling_rights. rewrite get_bits_u64 by lia. cbn [mbind option_bind].
  rewrite to_int_small by lia.
  destruct Us; rewrite shl_int_small by lia; done.
Qed.

Lemma king_square_value cd :
  king_square cd = Some ((w0 cd / 2 ^ 56) mod 2 ^ 7).
Proof. apply read_int; lia. Qed.

End color_data_proofs.

Section color_data_claims.
Import Pawns.

(** X7.  Every accessor of [ColorData] that reads [w[0]] or [w[1]] is
    defined for every content of the words and stays within its field:
    both parts of [pawn_score] in [-1024, 1024), the two counts below 16,
    the king square below 128, the two masks below 256, and the castling
    rights below 4 for [WHITE] and a multiple of 4 below 16 for [BLACK]. *)
Theorem color_data_ranges (Us : Color) (cd : ColorData) :
  (∃ mg eg, pawn_score_parts cd = Some (mg, eg)
            ∧ -1024 <= mg < 1024 ∧ -1024 <= eg < 1024)
  ∧ (∃ n, pawns_on_dark_squares cd = Some n ∧ 0 <= n < 16)
  ∧ (∃ n, weak_unopposed cd = Some n ∧ 0 <= n < 16)
  ∧ (∃ c, castling_rights Us cd = Some c
          ∧ match Us with
            | WHITE => 0 <= c < 4
            | BLACK => 0 <= c < 16 ∧ c mod 4 = 0
            end)
  ∧ (∃ s, king_square cd = Some s ∧ 0 <= s < 128)
  ∧ (∃ m, passed_mask cd = Some m ∧ 0 <= m < 256)
  ∧ (∃ m, semiopen_files cd = Some m ∧ 0 <= m < 256).
Proof.
  pose proof (field_range (w0 cd) 0 11 ltac:(lia)).
  pose proof (field_range (w0 cd) 11 11 ltac:(lia)).
  pose proof (field_range (w0 cd) 46 4 ltac:(lia)).
  pose proof (field_range (w0 cd) 50 4 ltac:(lia)).
  pose proof (field_range (w0 cd) 54 2 ltac:(lia)).
  pose proof (field_range (w0 cd) 56 7 ltac:(lia)).
  pose proof (field_range (w1 cd) 0 8 ltac:(lia)).
  pose proof (field_range (w1 cd) 8 8 ltac:(lia)).
  change (2 ^ 0) with 1 in *. rewrite Z.div_1_r in *.
  repeat split.
  - eexists _, _. split; [apply pawn_score_parts_value|]. lia.
  - eexists. split; [apply read_int; lia|]. lia.
  - eexists. split; [apply read_int; lia|]. lia.
  - eexists. split; [apply castling_rights_value|].
    destruct Us; [lia|]. split; [lia|]. apply Z.mod_mul. lia.
  - eexists. split; [apply king_square_value|]. lia.
  - eexists. split; [apply get_bits_u64; lia|].
    change (2 ^ 0) with 1. rewrite Z.div_1_r. lia.
  - eexists. split; [apply get_bits_u64; lia|]. lia.
Qed.

Section color_data_more.

Lemma int_result_is_Some x : is_Some (int_result x) ↔ - 2 ^ 31 <= x < 2 ^ 31.
Proof.
  unfold int_result, int_bits. change (2 ^ (32 - 1)) with (2 ^ 31).
  destruct (Z.leb_spec (- 2 ^ 31) x), (Z.ltb_spec x (2 ^ 31)); simpl;
    split; try (intros [? ?]; done); try lia; eauto.
Qed.

Lemma semiopen_file_is_Some cd f :
  is_Some (semiopen_file cd f) ↔ -8 <= f < 56.
Proof.
  unfold semiopen_file. split.
  - intros [r Hr]. destruct (int_result (8 + f)) as [p|] eqn:Ep; [|done].
    simpl in Hr. unfold int_result in Ep. destruct (_ && _); [|done].
    injection Ep as <-.
    destruct (get_bits uint64_t (w1 cd) (8 + f) 1) as [a|] eqn:Ea; [|done].
    apply get_bits_Some in Ea as (_ & Hp & _). change (arith_bits uint64_t) with 64 in Hp. lia.
  - intros Hf. rewrite int_result_small by lia. cbn [mbind option_bind].
    rewrite get_bits_u64 by lia. cbn [mbind option_bind]. eauto.
Qed.

End color_data_more.

(** X8.  [semiopen_file(f)] is defined exactly for [-8 <= f < 56], and
    for a file [0 <= f < 8] it is bit [f] of [semiopen_files()]. *)
Theorem semiopen_file_bit (cd : ColorData) (f : Z) :
  (is_Some (semiopen_file cd f) ↔ -8 <= f < 56)
  ∧ (0 <= f < 8 →
     ∃ m, semiopen_files cd = Some m
          ∧ semiopen_file cd f = Some (Z.b2z (Z.testbit m f))).
Proof.
  split; [apply semiopen_file_is_Some|]. intros Hf.
  eexists. split; [apply get_bits_u64; lia|].
  unfold semiopen_file. rewrite int_result_small by lia.
  cbn [mbind option_bind]. rewrite get_bits_u64 by lia.
  cbn [mbind option_bind]. f_equal.
  pose proof (field_range (w1 cd) (8 + f) 1 ltac:(lia)).
  rewrite to_int_small by lia.
  rewrite Z.mod_pow2_bits_low, Z.div_pow2_bits by lia.
  rewrite Z.testbit_spec' by lia. change (2 ^ 1) with 2.
  by rewrite (Z.add_comm 8 f).
Qed.

(** X9.  The shifts of [pawn_attacks] and [pawn_attacks_outpost] drop no
    bit: the result is the field times the power of two of the shift, below
    [2^64] for the attacks and below [2^48] for the outposts. *)
Theorem pawn_attacks_shift (Us : Color) (cd : ColorData) :
  pawn_attacks Us cd
  = Some (w2 cd mod 2 ^ 48 * match Us with WHITE => 2 ^ 16 | BLACK => 1 end)
  ∧ w2 cd mod 2 ^ 48 * match Us with WHITE => 2 ^ 16 | BLACK => 1 end < 2 ^ 64
  ∧ pawn_attacks_outpost Us cd
    = Some ((w0 cd / 2 ^ 22) mod 2 ^ 24
            * match Us with WHITE => 2 ^ 16 | BLACK => 2 ^ 24 end)
  ∧ (w0 cd / 2 ^ 22) mod 2 ^ 24
    * match Us with WHITE => 2 ^ 16 | BLACK => 2 ^ 24 end < 2 ^ 48.
Proof.
  pose proof (field_range (w2 cd) 0 48 ltac:(lia)) as H2.
  pose proof (field_range (w0 cd) 22 24 ltac:(lia)) as H0.
  change (2 ^ 0) with 1 in H2. rewrite Z.div_1_r in H2.
  unfold pawn_attacks, pawn_attacks_outpost.
  rewrite !get_bits_u64 by lia. cbn [mbind option_bind].
  change (2 ^ 0) with 1. rewrite Z.div_1_r.
  destruct Us; rewrite !shl_u64_small by lia; repeat split; lia.
Qed.

(** X10.  [set_bits] on any field of [w[0]], with any value, is defined,
    is read back by [get_bits] modulo the length of the field, and leaves
    every accessor of the other fields of [w[0]] as it was. *)
Theorem w0_accessors_frame (f : w0_field) (cd : ColorData) (v : Z) :
  ∃ w', set_bits uint64_t (w0 cd) (field_pos f) (field_len f) v = Some w'
    ∧ get_bits uint64_t w' (field_pos f) (field_len f)
      = Some (v mod 2 ^ field_len f)
    ∧ (f ≠ f_mg → f ≠ f_eg →
       pawn_score_parts (mkColorData w' (w1 cd) (w2 cd)) = pawn_score_parts cd)
    ∧ (f ≠ f_outpost → ∀ Us,
       pawn_attacks_outpost Us (mkColorData w' (w1 cd) (w2 cd))
       = pawn_attacks_outpost Us cd)
    ∧ (f ≠ f_dark →
       pawns_on_dark_squares (mkColorData w' (w1 cd) (w2 cd))
       = pawns_on_dark_squares cd)
    ∧ (f ≠ f_weak →
       weak_unopposed (mkColorData w' (w1 cd) (w2 cd)) = weak_unopposed cd)
    ∧ (f ≠ f_castling → ∀ Us,
       castling_rights Us (mkColorData w' (w1 cd) (w2 cd))
       = castling_rights Us cd)
    ∧ (f ≠ f_king →
       king_square (mkColorData w' (w1 cd) (w2 cd)) = king_square cd).
Proof.
  destruct (set_bits_defined_wide uint64_t (w0 cd) (field_pos f) (field_len f) v)
    as [w' Hs]; [done|by destruct f|by destruct f|].
  exists w'. split; [done|]. split.
  { apply (set_bits_truncates_field _ _ _ _ _ _ Hs). by destruct f. }
  assert (∀ g, g ≠ f →
    get_bits uint64_t w' (field_pos g) (field_len g)
    = get_bits uint64_t (w0 cd) (field_pos g) (field_len g)) as Hother.
  { intros g Hg. apply (get_bits_after_set_bits _ _ _ _ _ _ _ _ Hs).
    - by destruct g.
    - by destruct g.
    - destruct f, g; simpl; try done; lia. }
  repeat split.
  - intros H1 H2. unfold pawn_score_parts. cbn [w0].
    pose proof (Hother f_mg ltac:(done)) as Hm.
    pose proof (Hother f_eg ltac:(done)) as He.
    simpl in Hm, He. by rewrite Hm, He.
  - intros H1 Us. unfold pawn_attacks_outpost. cbn [w0].
    pose proof (Hother f_outpost ltac:(done)) as Hm. simpl in Hm.
    by rewrite Hm.
  - intros H1. unfold pawns_on_dark_squares. cbn [w0].
    pose proof (Hother f_dark ltac:(done)) as Hm. simpl in Hm. by rewrite Hm.
  - intros H1. unfold weak_unopposed. cbn [w0].
    pose proof (Hother f_weak ltac:(done)) as Hm. simpl in Hm. by rewrite Hm.
  - intros H1 Us. unfold castling_rights. cbn [w0].
    pose proof (Hother f_castling ltac:(done)) as Hm. simpl in Hm.
    by rewrite Hm.
  - intros H1. unfold king_square. cbn [w0].
    pose proof (Hother f_king ltac:(done)) as Hm. simpl in Hm. by rewrite Hm.
Qed.

Lemma get_bits_u8 w pos len :
  0 <= pos < 32 → 0 <= len <= 8 →
  get_bits uint8_t w pos len = Some ((w / 2 ^ pos) mod 2 ^ len).
Proof.
  intros Hp Hl. apply get_bits_div_mod; [exact Hp| |exact (proj2 Hl)].
  change (value_bits uint8_t) with 31. lia.
Qed.

(** X11.  [pawn_asymmetry] and [open_files] are defined for every
    [common], are both below 16, and together give back the byte:
    [pawn_asymmetry + 16 * open_files = common mod 256]. *)
Theorem common_accessors (e : Entry) :
  ∃ a o, pawn_asymmetry e = Some a ∧ open_files e = Some o
         ∧ 0 <= a < 16 ∧ 0 <= o < 16
         ∧ a + 16 * o = common e mod 256.
Proof.
  pose proof (field_range (common e) 0 4 ltac:(lia)) as Ha.
  pose proof (field_range (common e) 4 4 ltac:(lia)) as Ho.
  exists ((common e / 2 ^ 0) mod 2 ^ 4), ((common e / 2 ^ 4) mod 2 ^ 4).
  unfold pawn_asymmetry, open_files.
  rewrite !get_bits_u8 by lia.
  cbn [mbind option_bind]. rewrite !to_int_small by lia.
  repeat split; try lia.
  change (2 ^ 0) with 1. rewrite Z.div_1_r. change (2 ^ 4) with 16.
  change 256 with (16 * 16). rewrite Z.rem_mul_r by lia. lia.
Qed.

(** X12.  [king_safety] is defined for every content of the words.  It
    returns the stored score, with a middle-game part in [-4096, 4096) and
    an end-game part that is a multiple of 16 in [-112, 0], and leaves the
    data as they are, when the stored king square is [ksq] and the stored
    castling rights are those of the position; otherwise, and always for a
    [ksq] outside [0, 128), it returns what [do_king_safety] returns. *)
Theorem king_safety_cases {Score : Type} (Us : Color) (make_score : Z → Z → Score)
        (do_king_safety : Z → ColorData → Score * ColorData)
        (can_castle : Z) (cd : ColorData) (ksq : Z) :
  ∃ ks cr mg eg,
    king_square cd = Some ks ∧ castling_rights Us cd = Some cr
    ∧ king_safety_parts cd = Some (mg, eg)
    ∧ -4096 <= mg < 4096 ∧ -112 <= eg <= 0 ∧ eg mod 16 = 0
    ∧ king_safety Us make_score do_king_safety can_castle cd ksq
      = Some (if (ks =? ksq) && (cr =? can_castle)
              then (make_score mg eg, cd) else do_king_safety ksq cd)
    ∧ (¬ (0 <= ksq < 128) →
       king_safety Us make_score do_king_safety can_castle cd ksq
       = Some (do_king_safety ksq cd)).
Proof.
  pose proof (field_range (w2 cd) 48 13 ltac:(lia)).
  pose proof (field_range (w2 cd) 61 3 ltac:(lia)).
  pose proof (field_range (w0 cd) 56 7 ltac:(lia)).
  eexists _, _, _, _.
  split; [apply king_square_value|]. split; [apply castling_rights_value|].
  split; [apply king_safety_parts_value|].
  split; [lia|]. split; [lia|].
  split.
  { replace (-16 * ((w2 cd / 2 ^ 61) mod 2 ^ 3))
      with (- ((w2 cd / 2 ^ 61) mod 2 ^ 3) * 16) by lia.
    apply Z.mod_mul. lia. }
  unfold king_safety. rewrite king_square_value. cbn [mbind option_bind].
  rewrite castling_rights_value, king_safety_parts_value.
  cbn [mbind option_bind]. split.
  - destruct (_ =? ksq); [|done]. simpl. by destruct (_ =? can_castle).
  - intros Hk.
    destruct (Z.eqb_spec ((w0 cd / 2 ^ 56) mod 2 ^ 7) ksq); [lia|done].
Qed.

End color_data_claims.

(** ** [TTSendBuffer] from any contents *)

Local Open Scope nat_scope.

Section heap_permutations.
Import StdHeap.
Context {A : Type} `{!Inhabited A}.
Variable comp : A → A → bool.

Lemma adjust_heap_loop_Permutation fuel (l : list A) h len l' h' :
  length l = len → h < len →
  adjust_heap_loop comp fuel l h len = (l', h') →
  length l' = len ∧ h' < len ∧ ∀ x, <[h':=x]> l' ≡ₚ <[h:=x]> l.
Proof.
  revert l h. induction fuel as [|fuel IH]; intros l h Hlen Hlt.
  - by intros [<- <-]%pair_equal_spec.
  - rewrite adjust_heap_loop_S. cbv zeta.
    destruct (Nat.ltb_spec h ((len - 1) / 2)) as [Hc|Hc];
      [|by intros [<- <-]%pair_equal_spec].
    set (right := 2 * (h + 1)).
    set (c := if comp (l !!! right) (l !!! (right - 1)) then right - 1 else right).
    assert (right < len) as Hr.
    { pose proof (Nat.Div0.mul_div_le (len - 1) 2). unfold right. lia. }
    assert (c = right - 1 ∨ c = right) as Hcc
      by (unfold c; destruct (comp _ _); auto).
    intros Hrec. apply IH in Hrec as (Hlen' & Hlt' & Hperm).
    + split; [done|]. split; [done|]. intros x. rewrite Hperm.
      apply insert_move_Permutation; unfold right in *; lia.
    + by rewrite length_insert.
    + unfold right in *. lia.
Qed.

Lemma adjust_heap_last_Permutation (l : list A) h len l' h' :
  length l = len → h < len →
  adjust_heap_last l h len = (l', h') →
  length l' = len ∧ h' < len ∧ ∀ x, <[h':=x]> l' ≡ₚ <[h:=x]> l.
Proof.
  intros Hlen Hlt. unfold adjust_heap_last. cbv zeta.
  destruct (Nat.even len) eqn:Hev; cbn [andb];
    [|by intros [<- <-]%pair_equal_spec].
  destruct (Nat.eqb_spec h ((len - 2) / 2)) as [Heq|Hne];
    [|by intros [<- <-]%pair_equal_spec].
  intros [<- <-]%pair_equal_spec.
  apply Nat.even_spec in Hev as [k Hk].
  pose proof (Nat.div_mod_eq (len - 2) 2) as Hd2.
  pose proof (Nat.mod_upper_bound (len - 2) 2 ltac:(lia)) as Hm2.
  assert (2 * (h + 1) - 1 = len - 1) as -> by lia.
  split; [by rewrite length_insert|]. split; [lia|].
  intros x. apply insert_move_Permutation; lia.
Qed.

Lemma adjust_heap_Permutation (l : list A) v :
  0 < length l → adjust_heap comp l 0 (length l) v ≡ₚ <[0:=v]> l.
Proof.
  intros Hpos. unfold adjust_heap.
  destruct (adjust_heap_loop comp (length l) l 0 (length l)) as [l1 h1] eqn:E1.
  apply adjust_heap_loop_Permutation in E1 as (Hlen1 & Hlt1 & Hperm1);
    [|done..].
  destruct (adjust_heap_last l1 h1 (length l)) as [l2 h2] eqn:E2.
  apply adjust_heap_last_Permutation in E2 as (Hlen2 & Hlt2 & Hperm2);
    [|done..].
  unfold push_heap_aux. rewrite push_heap_loop_Permutation by lia.
  by rewrite Hperm2, Hperm1.
Qed.

(** [std::pop_heap] on any range that is not empty: the old first element
    comes last and nothing is lost. *)
Lemma pop_heap_Permutation (l : list A) :
  0 < length l →
  ∃ H, pop_heap comp l = H ++ [l !!! 0] ∧ H ++ [l !!! 0] ≡ₚ l.
Proof.
  intros Hl. unfold pop_heap.
  destruct (Nat.ltb_spec 1 (length l)) as [Hlen|Hlen].
  - set (last := length l - 1).
    assert (length (take last l) = last) as Htl
      by (rewrite length_take; unfold last; lia).
    pose proof (adjust_heap_Permutation (take last l) (l !!! last)) as Hp.
    rewrite Htl in Hp. eexists. split; [done|].
    rewrite Hp by (unfold last; lia).
    transitivity (take last l ++ [l !!! last]);
      [|unfold last; by rewrite <- (list_split_last l Hl)].
    destruct (take last l) as [|a t] eqn:Et;
      [simpl in Htl; unfold last in *; lia|].
    assert (l !!! 0 = a) as ->.
    { rewrite <- (lookup_total_take_lt l last 0) by (unfold last; lia).
      by rewrite Et. }
    simpl. rewrite !(Permutation_app_comm t). simpl. apply Permutation_swap.
  - destruct l as [|a [|b l]]; simpl in *; try lia. by exists [].
Qed.

Lemma push_heap_Permutation (l : list A) : push_heap comp l ≡ₚ l.
Proof.
  unfold push_heap, push_heap_aux. cbv zeta.
  destruct l as [|a l]; [done|].
  rewrite push_heap_loop_Permutation by (simpl; lia).
  rewrite list_insert_id; [done|].
  apply list_lookup_lookup_total_lt. simpl. lia.
Qed.

Lemma pop_set_push_Permutation (l : list A) v :
  0 < length l →
  l !!! 0 :: push_heap comp (<[length (pop_heap comp l) - 1 := v]> (pop_heap comp l))
  ≡ₚ v :: l.
Proof.
  intros Hl. destruct (pop_heap_Permutation l Hl) as (H & Hpop & Hperm).
  rewrite Hpop, length_app. simpl.
  replace (length H + 1 - 1) with (length H + 0) by lia.
  rewrite insert_app_r. simpl. rewrite push_heap_Permutation.
  set (a := l !!! 0) in *. rewrite <- Hperm.
  rewrite !(Permutation_app_comm H). simpl. apply Permutation_swap.
Qed.

End heap_permutations.

Local Open Scope Z_scope.

Section ttsendbuffer_more.
Import Cluster Cluster.TTSendBuffer.

Local Abbreviation heap := (StdHeap.heap_ordered compare).

Lemma front_elem this : (0 < length this)%nat → front this ∈ this.
Proof.
  intros Hl. apply list_elem_of_lookup_total. exists 0%nat. split; [lia|done].
Qed.

Lemma replace_all_results_length values this :
  length (replace_all values this).1 = length values.
Proof.
  revert this. induction values as [|v values IH]; intros this; [done|].
  rewrite replace_all_cons. simpl. by rewrite IH.
Qed.

(** X13.  [Compare] is a strict weak ordering, as [std::pop_heap] and
    [std::push_heap] require: irreflexive, asymmetric and transitive, with
    two entries incomparable exactly when they have the same depth, which
    is a transitive relation. *)
Theorem compare_strict_weak_order :
  (∀ x, compare x x = false)
  ∧ (∀ x y, compare x y = true → compare y x = false)
  ∧ (∀ x y z, compare x y = true → compare y z = true → compare x z = true)
  ∧ (∀ x y, compare x y = false ∧ compare y x = false ↔ depth x = depth y)
  ∧ (∀ x y z, compare x y = false → compare y x = false →
              compare y z = false → compare z y = false →
              compare x z = false ∧ compare z x = false).
Proof.
  split; [intros x; apply compare_false; lia|].
  split; [apply compare_asym|].
  split; [intros x y z; rewrite !compare_true; lia|].
  split; [intros x y; rewrite !compare_false; lia|].
  intros x y z. rewrite !compare_false. lia.
Qed.

(** X14.  On any array that is not empty, in heap order or not, a call of
    [replace] that returns true removes the front entry, adds the value and
    keeps every other entry, and the value is deeper than the entry it
    evicts. *)
Theorem replace_swaps_front (value : KeyedTTEntry) (this : list KeyedTTEntry) :
  (0 < length this)%nat → (replace value this).1 = true →
  front this :: (replace value this).2 ≡ₚ value :: this
  ∧ depth (front this) < depth value.
Proof.
  intros Hl Hr. split.
  - unfold replace in *. destruct (compare _ _); [|done]. simpl.
    unfold set_back, front. by apply pop_set_push_Permutation.
  - rewrite replace_result in Hr. by apply compare_true.
Qed.

Lemma replace_swaps_front_witness :
  (0 < length (fresh 2))%nat
  ∧ (replace (entry_of_depth 1 5) (fresh 2)).1 = true
  ∧ front (fresh 2) :: (replace (entry_of_depth 1 5) (fresh 2)).2
    ≡ₚ entry_of_depth 1 5 :: fresh 2.
Proof.
  assert (0 < length (fresh 2))%nat as Hl by (simpl; lia).
  split; [exact Hl|]. split; [reflexivity|].
  exact (proj1 (replace_swaps_front (entry_of_depth 1 5) (fresh 2) Hl
                  eq_refl)).
Defined.

(** X15.  From any array in heap order that is not empty, a sequence of
    calls of [replace] gives one result for every value, keeps the length
    and the heap order, and leaves in the array a selection of highest depth
    among its initial entries and the values offered. *)
Theorem replace_all_from_heap (values this : list KeyedTTEntry) :
  StdHeap.is_heap compare this = true → (0 < length this)%nat →
  StdHeap.is_heap compare (replace_all values this).2 = true
  ∧ length (replace_all values this).2 = length this
  ∧ length (replace_all values this).1 = length values
  ∧ ∃ rest, (replace_all values this).2 ++ rest ≡ₚ this ++ values
            ∧ ∀ x y, x ∈ (replace_all values this).2 → y ∈ rest →
                     depth y <= depth x.
Proof.
  intros Hh%is_heap_heap Hl.
  destruct (replace_all_invariant values this Hh Hl) as (Hh' & Hl' & _ & Hrest).
  split; [by apply is_heap_heap|]. split; [done|].
  split; [apply replace_all_results_length|done].
Qed.

Lemma replace_all_from_heap_witness :
  StdHeap.is_heap compare [entry_of_depth 1 3; entry_of_depth 2 7] = true
  ∧ (0 < length [entry_of_depth 1%Z 3%Z; entry_of_depth 2%Z 7%Z])%nat
  ∧ length (replace_all [entry_of_depth 3 5; entry_of_depth 4 1]
              [entry_of_depth 1 3; entry_of_depth 2 7]).2
    = length [entry_of_depth 1 3; entry_of_depth 2 7].
Proof.
  assert (0 < length [entry_of_depth 1%Z 3%Z; entry_of_depth 2%Z 7%Z])%nat
    as Hl by (simpl; lia).
  split; [reflexivity|]. split; [exact Hl|].
  exact (proj1 (proj2 (replace_all_from_heap
                         [entry_of_depth 3 5; entry_of_depth 4 1]
                         [entry_of_depth 1 3; entry_of_depth 2 7]
                         eq_refl Hl))).
Defined.

(** X16.  On an array in heap order the least depth never decreases over
    a sequence of calls of [replace], so a value that is rejected is still
    rejected after any further calls. *)
Theorem min_depth_never_decreases (values this : list KeyedTTEntry)
        (value : KeyedTTEntry) :
  StdHeap.is_heap compare this = true → (0 < length this)%nat →
  min_depth this <= min_depth (replace_all values this).2
  ∧ ((replace value this).1 = false →
     (replace value (replace_all values this).2).1 = false).
Proof.
  intros Hh%is_heap_heap Hl.
  destruct (replace_all_invariant values this Hh Hl) as (Hh' & Hl' & Hmono & _).
  assert (min_depth this <= min_depth (replace_all values this).2) as Hmin.
  { rewrite (min_depth_front (replace_all values this).2) by done.
    apply Hmono; [apply min_depth_le|]. apply front_elem. lia. }
  split; [done|]. intros Hr.
  apply not_true_iff_false. apply not_true_iff_false in Hr.
  rewrite replace_iff_min in * by done. lia.
Qed.

Lemma min_depth_never_decreases_witness :
  StdHeap.is_heap compare [entry_of_depth 1 3; entry_of_depth 2 7] = true
  ∧ (0 < length [entry_of_depth 1%Z 3%Z; entry_of_depth 2%Z 7%Z])%nat
  ∧ min_depth [entry_of_depth 1 3; entry_of_depth 2 7]
    <= min_depth (replace_all [entry_of_depth 3 5]
                    [entry_of_depth 1 3; entry_of_depth 2 7]).2.
Proof.
  assert (0 < length [entry_of_depth 1%Z 3%Z; entry_of_depth 2%Z 7%Z])%nat
    as Hl by (simpl; lia).
  split; [reflexivity|]. split; [exact Hl|].
  exact (proj1 (min_depth_never_decreases [entry_of_depth 3 5]
                  [entry_of_depth 1 3; entry_of_depth 2 7]
                  (entry_of_depth 9 9) eq_refl Hl)).
Defined.

(** X17.  On an array in heap order a sequence of values none of which
    is deeper than the least depth stored is rejected one by one and leaves
    the array as it is. *)
Theorem replace_all_shallow (values this : list KeyedTTEntry) :
  StdHeap.is_heap compare this = true →
  (∀ v, v ∈ values → depth v <= min_depth this) →
  replace_all values this = (replicate (length values) false, this).
Proof.
  intros Hh%is_heap_heap. induction values as [|v values IH]; intros Hall; [done|].
  assert ((replace v this).1 = false) as Hr.
  { apply not_true_iff_false. rewrite replace_iff_min by done.
    specialize (Hall v ltac:(left)). lia. }
  rewrite replace_all_cons, Hr, (replace_rejected _ _ Hr), IH; [done|].
  intros x Hx. apply Hall. by right.
Qed.

Lemma replace_all_shallow_witness :
  StdHeap.is_heap compare [entry_of_depth 1 3; entry_of_depth 2 7] = true
  ∧ (∀ v, v ∈ [entry_of_depth 3 3; entry_of_depth 4 1] →
          depth v <= min_depth [entry_of_depth 1 3; entry_of_depth 2 7])
  ∧ replace_all [entry_of_depth 3 3; entry_of_depth 4 1]
      [entry_of_depth 1 3; entry_of_depth 2 7]
    = (replicate 2 false, [entry_of_depth 1 3; entry_of_depth 2 7]).
Proof.
  assert (∀ v, v ∈ [entry_of_depth 3 3; entry_of_depth 4 1] →
               depth v <= min_depth [entry_of_depth 1 3; entry_of_depth 2 7])
    as Hall.
  { intros v [->|[->|Hv%elem_of_nil]%elem_of_cons]%elem_of_cons;
      [cbv; discriminate|cbv; discriminate|done]. }
  split; [reflexivity|]. split; [exact Hall|].
  exact (replace_all_shallow [entry_of_depth 3 3; entry_of_depth 4 1]
           [entry_of_depth 1 3; entry_of_depth 2 7] eq_refl Hall).
Defined.

(** X18.  [std::pop_heap] with [Compare] on an array in heap order moves
    the front entry to the back and leaves before it a heap of the other
    entries, none of them shallower than the entry moved. *)
Theorem pop_heap_on_heap (this : list KeyedTTEntry) :
  StdHeap.is_heap compare this = true → (0 < length this)%nat →
  ∃ H, StdHeap.pop_heap compare this = H ++ [front this]
       ∧ StdHeap.is_heap compare H = true
       ∧ H ++ [front this] ≡ₚ this
       ∧ ∀ x, x ∈ H → depth (front this) <= depth x.
Proof.
  intros Hh%is_heap_heap Hl.
  destruct (pop_heap_spec compare compare_asym compare_negtrans this Hh Hl)
    as (H & Hpop & HhH & _ & Hperm).
  exists H. split; [done|]. split; [by apply is_heap_heap|]. split; [done|].
  intros x Hx. apply front_min; [done|]. unfold front. rewrite <- Hperm.
  apply elem_of_app. by left.
Qed.

Lemma pop_heap_on_heap_witness :
  StdHeap.is_heap compare
    [entry_of_depth 1 1; entry_of_depth 2 3; entry_of_depth 3 2] = true
  ∧ (0 < length [entry_of_depth 1%Z 1%Z; entry_of_depth 2%Z 3%Z;
                 entry_of_depth 3%Z 2%Z])%nat
  ∧ ∃ H, StdHeap.pop_heap compare
           [entry_of_depth 1 1; entry_of_depth 2 3; entry_of_depth 3 2]
         = H ++ [entry_of_depth 1 1]
         ∧ StdHeap.is_heap compare H = true.
Proof.
  assert (0 < length [entry_of_depth 1%Z 1%Z; entry_of_depth 2%Z 3%Z;
                      entry_of_depth 3%Z 2%Z])%nat as Hl by (simpl; lia).
  split; [reflexivity|]. split; [exact Hl|].
  destruct (pop_heap_on_heap
              [entry_of_depth 1 1; entry_of_depth 2 3; entry_of_depth 3 2]
              eq_refl Hl) as (H & Hpop & Hh & _).
  exists H. split; [exact Hpop|exact Hh].
Defined.

(** X19.  [std::push_heap] with [Compare] on an array whose entries but
    the last are in heap order puts the whole array in heap order, keeps its
    entries, and brings a least-depth entry to the front. *)
Theorem push_heap_on_heap (this : list KeyedTTEntry) :
  (0 < length this)%nat →
  StdHeap.is_heap compare (take (length this - 1) this) = true →
  StdHeap.is_heap compare (StdHeap.push_heap compare this) = true
  ∧ StdHeap.push_heap compare this ≡ₚ this
  ∧ ∀ x, x ∈ this →
         depth (front (StdHeap.push_heap compare this)) <= depth x.
Proof.
  intros Hl Hh%is_heap_heap.
  destruct (push_heap_spec compare compare_asym compare_negtrans this Hl Hh)
    as [Hh' Hp].
  split; [by apply is_heap_heap|]. split; [done|].
  intros x Hx. apply front_min; [done|]. by rewrite Hp.
Qed.

Lemma push_heap_on_heap_witness :
  (0 < length [entry_of_depth 1%Z 1%Z; entry_of_depth 2%Z 3%Z;
               entry_of_depth 3%Z 0%Z])%nat
  ∧ StdHeap.is_heap compare
      (take 2 [entry_of_depth 1 1; entry_of_depth 2 3; entry_of_depth 3 0])
    = true
  ∧ StdHeap.is_heap compare
      (StdHeap.push_heap compare
         [entry_of_depth 1 1; entry_of_depth 2 3; entry_of_depth 3 0])
    = true.
Proof.
  assert (0 < length [entry_of_depth 1%Z 1%Z; entry_of_depth 2%Z 3%Z;
                      entry_of_depth 3%Z 0%Z])%nat as Hl by (simpl; lia).
  split; [exact Hl|]. split; [reflexivity|].
  exact (proj1 (push_heap_on_heap
                  [entry_of_depth 1 1; entry_of_depth 2 3; entry_of_depth 3 0]
                  Hl eq_refl)).
Defined.

End ttsendbuffer_more.

(** ** [getline] call after call, and the state over a run *)




Section getline_more.
Import Cluster.

Lemma extract_line_app line rest :
  has_newline line = false →
  extract_line (line ++ String newline rest) = (line, Some rest).
Proof.
  induction line as [|c line IH]; simpl.
  - done.
  - destruct (Ascii.eqb c newline); [done|]. simpl. intros Hl.
    by rewrite IH.
Qed.

Lemma extract_line_no_newline line :
  has_newline line = false → extract_line line = (line, None).
Proof.
  induction line as [|c line IH]; simpl; [done|].
  destruct (Ascii.eqb c newline); [done|]. simpl. intros Hl. by rewrite IH.
Qed.

Lemma getline_not_good input str :
  good input = false →
  getline input str
  = (false, mkIstream (pending input) (source input) (eofbit input) true
                      (badbit input), str).
Proof.
  intros Hg. unfold getline, std_getline. rewrite Hg.
  unfold istream_bool, fail. done.
Qed.

Lemma getline_false_not_good input str :
  (getline input str).1.1 = false → good (getline input str).1.2 = false.
Proof.
  destruct (good input) eqn:Hg.
  2: { rewrite getline_not_good by done. intros _. unfold good. simpl.
       by rewrite orb_true_r. }
  unfold getline, std_getline. rewrite Hg.
  destruct (extract_line (pending input)) as [line [rest|]]; [done|].
  cbv zeta.
  destruct (source input), (String.eqb line EmptyString);
    unfold istream_bool, fail, good; simpl; done.
Qed.

End getline_more.

Section getline_claims.
Import Cluster.

(** X20.  Once [getline] has returned false, the next call on the same
    stream returns false again, leaves its string argument as it is,
    consumes nothing and leaves the stream failed. *)
Theorem getline_failure_sticky (input : istream) (str str2 : string) :
  (getline input str).1.1 = false →
  (getline (getline input str).1.2 str2).1.1 = false
  ∧ (getline (getline input str).1.2 str2).2 = str2
  ∧ pending (getline (getline input str).1.2 str2).1.2
    = pending (getline input str).1.2
  ∧ good (getline (getline input str).1.2 str2).1.2 = false.
Proof.
  intros Hf%getline_false_not_good.
  rewrite (getline_not_good _ _ Hf). simpl. repeat split.
  unfold good. simpl. by rewrite orb_true_r.
Qed.

Lemma getline_failure_sticky_witness :
  (getline (mkIstream "" at_eof false false false) "a").1.1 = false
  ∧ (getline (getline (mkIstream "" at_eof false false false) "a").1.2
       "b").1.1 = false.
Proof.
  split; [reflexivity|].
  exact (proj1 (getline_failure_sticky
                  (mkIstream "" at_eof false false false) "a" "b" eq_refl)).
Defined.

(** X21.  On a good stream whose pending characters are a line, a
    newline and a rest, [getline] returns true with the line, consumes the
    line and the newline, and leaves a good stream on the rest. *)
Theorem getline_reads_line (input : istream) (line rest str : string) :
  good input = true → has_newline line = false →
  pending input = (line ++ String newline rest)%string →
  getline input str
  = (true, mkIstream rest (source input) false false false, line)
  ∧ good (getline input str).1.2 = true.
Proof.
  intros Hg Hl Hp. unfold getline, std_getline.
  rewrite Hg, Hp, (extract_line_app _ _ Hl). done.
Qed.

Lemma getline_reads_line_witness :
  (good (mkIstream ("go" ++ String newline "stop") at_eof false false false)
   = true
   ∧ has_newline "go" = false)
  ∧ getline (mkIstream ("go" ++ String newline "stop") at_eof false false
               false) "old"
    = (true, mkIstream "stop" at_eof false false false, "go"%string).
Proof.
  split; [split; reflexivity|].
  exact (proj1 (getline_reads_line
                  (mkIstream ("go" ++ String newline "stop") at_eof false
                     false false)
                  "go" "stop" "old" eq_refl eq_refl eq_refl)).
Defined.

(** X22.  On a good stream that ends after a last line without a
    newline, [getline] returns true with that line and sets [eofbit]; the
    next call returns false and leaves its string argument as it is. *)
Theorem getline_last_line (input : istream) (line str str2 : string) :
  good input = true → has_newline line = false → line ≠ EmptyString →
  pending input = line → source input = at_eof →
  getline input str
  = (true, mkIstream EmptyString at_eof true false false, line)
  ∧ getline (getline input str).1.2 str2
    = (false, mkIstream EmptyString at_eof true true false, str2).
Proof.
  intros Hg Hl Hne Hp Hs.
  assert (getline input str
          = (true, mkIstream EmptyString at_eof true false false, line)) as ->.
  { unfold getline, std_getline.
    rewrite Hg, Hp, (extract_line_no_newline _ Hl), Hs.
    destruct line; [done|]. done. }
  split; [done|]. done.
Qed.

Lemma getline_last_line_witness :
  (good (mkIstream "quit" at_eof false false false) = true
   ∧ has_newline "quit" = false ∧ "quit"%string ≠ EmptyString)
  ∧ getline (mkIstream "quit" at_eof false false false) "old"
    = (true, mkIstream EmptyString at_eof true false false, "quit"%string).
Proof.
  assert ("quit"%string ≠ EmptyString) as Hne by discriminate.
  split; [split; [reflexivity|split; [reflexivity|exact Hne]]|].
  exact (proj1 (getline_last_line (mkIstream "quit" at_eof false false false)
                  "quit" "old" "old" eq_refl eq_refl Hne eq_refl eq_refl)).
Defined.

(** X23.  At the end of a good stream [getline] returns false and leaves
    the string empty, whereas on a stream that is not good it returns false
    and leaves the string as it was. *)
Theorem getline_at_end_erases (input : istream) (str : string) :
  (good input = true → pending input = EmptyString → source input = at_eof →
   getline input str
   = (false, mkIstream EmptyString at_eof true true false, EmptyString))
  ∧ (good input = false →
     (getline input str).1.1 = false ∧ (getline input str).2 = str).
Proof.
  split.
  - intros Hg Hp Hs. unfold getline, std_getline. by rewrite Hg, Hp, Hs.
  - intros Hg. by rewrite getline_not_good.
Qed.

End getline_claims.

Section world_frame.
Import Cluster.

Variable TTEntry_save :
  Key → Value → Bound → Depth → Move → Value → TTEntry → TTEntry.

Lemma exec_frame c w :
  send_buffers (exec TTEntry_save c w).2 = send_buffers w
  ∧ stop (exec TTEntry_save c w).2 = stop w
  ∧ dom (tt_slots (exec TTEntry_save c w).2) = dom (tt_slots w)
  ∧ ∀ p, p ∉ saved_slots [c] →
         (tt_slots (exec TTEntry_save c w).2) !! p = (tt_slots w) !! p.
Proof.
  destruct c; simpl; try done.
  split; [done|]. split; [done|]. split; [apply dom_alter_L|].
  intros p Hp. apply lookup_alter_ne. intros ->. apply Hp. left.
Qed.

Lemma exec_all_cons c cs w :
  (exec_all TTEntry_save (c :: cs) w).2
  = (exec_all TTEntry_save cs (exec TTEntry_save c w).2).2.
Proof. simpl. unfold bind. by destruct (exec TTEntry_save c w). Qed.

Lemma saved_slots_cons c cs p :
  p ∉ saved_slots (c :: cs) → (p ∉ saved_slots [c]) ∧ (p ∉ saved_slots cs).
Proof.
  destruct c; simpl; try (intros ?; split; [apply not_elem_of_nil|done]).
  intros [? ?]%not_elem_of_cons. split; [|done].
  apply not_elem_of_cons. split; [done|apply not_elem_of_nil].
Qed.

End world_frame.

Section world_claims.
Import Cluster.

(** X24.  In the build without MPI, a sequence of calls to the functions
    of the namespace never changes the send buffers or the stop request,
    never adds or removes a slot of the table, and leaves every slot that
    no [save] of the sequence points to as it was. *)
Theorem exec_all_frame
        (TTEntry_save :
           Key → Value → Bound → Depth → Move → Value → TTEntry → TTEntry)
        (cs : list call) (w : World) :
  send_buffers (exec_all TTEntry_save cs w).2 = send_buffers w
  ∧ stop (exec_all TTEntry_save cs w).2 = stop w
  ∧ dom (tt_slots (exec_all TTEntry_save cs w).2) = dom (tt_slots w)
  ∧ ∀ p, p ∉ saved_slots cs →
         (tt_slots (exec_all TTEntry_save cs w).2) !! p = (tt_slots w) !! p.
Proof.
  revert w. induction cs as [|c cs IH]; intros w; [done|].
  rewrite exec_all_cons.
  destruct (IH (exec TTEntry_save c w).2) as (Hb & Hs & Hd & Hp).
  destruct (exec_frame TTEntry_save c w) as (Hb' & Hs' & Hd' & Hp').
  split; [congruence|]. split; [congruence|]. split; [congruence|].
  intros p [H1 H2]%saved_slots_cons. rewrite Hp by done. by apply Hp'.
Qed.

End world_claims.
